(** * Birdgame: a shallow embedding of [Birdgame.py] and its frame loop

    The development follows the layout of the Python module: the
    constants, then one Rocq module per class ([Bird], [Pipe], [Game]),
    each method becoming a function on the record of the object's
    attributes.  The rendering calls ([draw], [_draw_elements],
    [_display_game_over], [pygame.display.flip], [clock.tick]) read the
    state and never write it; they are left out, but for [Bird.draw],
    which is modelled by the calls it makes.

    Numbers.  [Pipe.x], the score and the spawn counter are Python
    [int]s and are modelled in [Z].  [Bird.y] and [Bird.velocity] become
    Python [float]s at the first [Bird.move] ([GRAVITY] is [0.5]); they
    are modelled in [Q].  Every value they take in the game is a
    multiple of one half of small magnitude, which binary floating point
    adds without rounding, so exact rational arithmetic is what the
    interpreter computes there.  A float is one value per number, so
    the sums are kept in lowest terms ([Qred]).

    The rationals and the unbounded integers of [Rect] are what the
    interpreter computes on the states the game can be in
    ([reachable]), where the numbers are small half-integers
    ([reachable_bird_in_range]) and the coordinates far inside the
    range of a C [int]; outside them floats round and C [int]s wrap.
    The properties of the bird's flight, of its rectangle, of what is
    drawn and of the rectangles of a pipe are therefore stated on
    reachable states, or on gaps in the range of the generator
    ([valid_gap]); the lemmas on arbitrary records are steps towards
    them. *)

From Stdlib Require Import ZArith QArith Qround List Bool Lia Lqa Sorted.
Import ListNotations.

#[local] Open Scope Z_scope.

(** ** Constants *)

Definition SCREEN_WIDTH : Z := 400.
Definition SCREEN_HEIGHT : Z := 600.
Definition PIPE_WIDTH : Z := 80.
Definition PIPE_GAP : Z := 150.
Definition GRAVITY : Q := 1 # 2.
Definition JUMP_STRENGTH : Z := -10.
Definition FPS : Z := 60.

(** ** [pygame.Rect]

    The library's rectangle: four C [int]s.  A [float] handed to the
    constructor is converted by a C cast, that is, truncated toward
    zero.  [right] and [bottom] are the derived attributes
    [x + w] and [y + h]; the sums are those of [Z], which are the
    sums of C [int]s as long as nothing overflows, as is the case for
    the rectangles of the game (coordinates and sizes below 1200 in
    magnitude). *)

Definition int_of_float (q : Q) : Z := Z.quot (Qnum q) (Zpos (Qden q)).

Module Rect.

Record t : Type := mk { x : Z; y : Z; w : Z; h : Z }.

Definition left (r : t) : Z := x r.
Definition top (r : t) : Z := y r.
Definition right (r : t) : Z := x r + w r.
Definition bottom (r : t) : Z := y r + h r.

(** [Rect.colliderect]: a rectangle of zero width or height collides
    with nothing; otherwise the test is the strict one on the
    normalised extents (a negative size is read as extending the other
    way), so rectangles that only share an edge do not collide. *)
Definition colliderect (a b : t) : bool :=
  if (w a =? 0) || (h a =? 0) || (w b =? 0) || (h b =? 0) then false
  else
    (Z.min (x a) (x a + w a) <? Z.max (x b) (x b + w b)) &&
    (Z.min (y a) (y a + h a) <? Z.max (y b) (y b + h b)) &&
    (Z.max (x a) (x a + w a) >? Z.min (x b) (x b + w b)) &&
    (Z.max (y a) (y a + h a) >? Z.min (y b) (y b + h b)).

(** Strict overlap of two axis-aligned rectangles, as a proposition:
    the open extents meet on both axes; touching edges do not count. *)
Definition overlaps (a b : t) : Prop :=
  left a < right b /\ left b < right a /\
  top a < bottom b /\ top b < bottom a.

(** The horizontal extents of two rectangles meet. *)
Definition overlaps_horizontally (a b : t) : Prop :=
  left a < right b /\ left b < right a.

End Rect.

(** ** class Bird *)

Module Bird.

Record t : Type := mk { x : Z; y : Q; size : Z; velocity : Q }.

(** [Bird.__init__] *)
Definition init : t :=
  {| x := 50; y := inject_Z (SCREEN_HEIGHT / 2); size := 20;
     velocity := inject_Z 0 |}.

(** [Bird.jump]: the velocity is overwritten. *)
Definition jump (b : t) : t :=
  {| x := x b; y := y b; size := size b;
     velocity := inject_Z JUMP_STRENGTH |}.

(** [Bird.move]: gravity is added to the velocity, then the new
    velocity to [y].  The sums are exact, as those of the floats are
    on the half-integers the game produces. *)
Definition move (b : t) : t :=
  let v := Qred (velocity b + GRAVITY) in
  {| x := x b; y := Qred (y b + v); size := size b; velocity := v |}.

(** [Bird.get_rect] *)
Definition get_rect (b : t) : Rect.t :=
  Rect.mk (x b) (int_of_float (y b)) (size b) (size b).

End Bird.

(** ** class Pipe *)

Module Pipe.

Record t : Type := mk { x : Z; gap_y : Z; velocity : Z; passed : bool }.

(** [Pipe.__init__] *)
Definition init (x0 gap_y0 : Z) : t :=
  {| x := x0; gap_y := gap_y0; velocity := -4; passed := false |}.

(** [Pipe.move] *)
Definition move (p : t) : t :=
  {| x := x p + velocity p; gap_y := gap_y p; velocity := velocity p;
     passed := passed p |}.

(** [Pipe.off_screen] *)
Definition off_screen (p : t) : bool := x p <? - PIPE_WIDTH.

(** [Pipe.get_upper_rect] *)
Definition get_upper_rect (p : t) : Rect.t :=
  Rect.mk (x p) 0 PIPE_WIDTH (gap_y p - PIPE_GAP / 2).

(** [Pipe.get_lower_rect] *)
Definition get_lower_rect (p : t) : Rect.t :=
  Rect.mk (x p) (gap_y p + PIPE_GAP / 2) PIPE_WIDTH SCREEN_HEIGHT.

(** The assignment [pipe.passed = True]. *)
Definition set_passed (p : t) : t :=
  {| x := x p; gap_y := gap_y p; velocity := velocity p; passed := true |}.

End Pipe.

(** ** Input events

    What [pygame.event.get()] returns, as far as [_handle_events] looks
    at it: the event type, and the key of a [KEYDOWN]. *)

Inductive Event : Type :=
| QUIT
| KEYDOWN (key : Z)
| OTHER.

Definition K_SPACE : Z := 32.

(** ** class Game *)

Module Game.

Record t : Type := mk {
  bird : Bird.t;
  pipes : list Pipe.t;
  score : Z;
  game_over : bool;
  pipe_spawn_counter : Z
}.

(** [Game.reset_game]: every attribute is assigned afresh. *)
Definition reset_game (g : t) : t :=
  {| bird := Bird.init; pipes := []; score := 0; game_over := false;
     pipe_spawn_counter := 0 |}.

(** [Game.__init__] ends in [self.reset_game()]; the display, clock
    and font it creates first are not part of the state modelled. *)
Definition init : t :=
  {| bird := Bird.init; pipes := []; score := 0; game_over := false;
     pipe_spawn_counter := 0 |}.

Definition with_bird (g : t) (b : Bird.t) : t :=
  {| bird := b; pipes := pipes g; score := score g;
     game_over := game_over g;
     pipe_spawn_counter := pipe_spawn_counter g |}.

Definition with_game_over (g : t) (v : bool) : t :=
  {| bird := bird g; pipes := pipes g; score := score g;
     game_over := v;
     pipe_spawn_counter := pipe_spawn_counter g |}.

(** The body of the loop of [_handle_events] for one event: three
    [if] statements in sequence, each reading [self.game_over] as the
    previous one left it.  [quit_game] ends the process ([sys.exit]):
    [None]. *)
Definition handle_event (g : t) (e : Event) : option t :=
  match e with
  | QUIT => None
  | OTHER => Some g
  | KEYDOWN key =>
      let g1 :=
        if negb (game_over g) then
          if key =? K_SPACE then with_bird g (Bird.jump (bird g)) else g
        else g in
      let g2 :=
        if game_over g1 then
          if key =? K_SPACE then reset_game g1 else g1
        else g1 in
      Some g2
  end.

(** [Game._handle_events] *)
Fixpoint _handle_events (g : t) (events : list Event) : option t :=
  match events with
  | [] => Some g
  | e :: rest =>
      match handle_event g e with
      | None => None
      | Some g' => _handle_events g' rest
      end
  end.

(** The first loop of [_check_collisions]: [game_over] is set at each
    pipe one of whose rectangles the bird's rectangle collides with. *)
Fixpoint collide_loop (bird_rect : Rect.t) (ps : list Pipe.t) (over : bool)
  : bool :=
  match ps with
  | [] => over
  | pipe :: rest =>
      collide_loop bird_rect rest
        (if Rect.colliderect bird_rect (Pipe.get_upper_rect pipe) ||
            Rect.colliderect bird_rect (Pipe.get_lower_rect pipe)
         then true else over)
  end.

(** [Game._check_collisions] *)
Definition _check_collisions (g : t) : t :=
  let bird_rect := Bird.get_rect (bird g) in
  let over := collide_loop bird_rect (pipes g) (game_over g) in
  let over :=
    if (Rect.top bird_rect <? 0) || (Rect.bottom bird_rect >? SCREEN_HEIGHT)
    then true else over in
  with_game_over g over.

(** The last loop of [_manage_pipes]: the pipes are visited in list
    order; one that is behind the bird and not yet marked adds one to
    the score and is marked.  The result is the list as the loop leaves
    it and the score. *)
Fixpoint score_loop (bird_x : Z) (ps : list Pipe.t) (sc : Z)
  : list Pipe.t * Z :=
  match ps with
  | [] => ([], sc)
  | pipe :: rest =>
      if (Pipe.x pipe + PIPE_WIDTH <? bird_x) && negb (Pipe.passed pipe)
      then
        let (rest', sc') := score_loop bird_x rest (sc + 1) in
        (Pipe.set_passed pipe :: rest', sc')
      else
        let (rest', sc') := score_loop bird_x rest sc in
        (pipe :: rest', sc')
  end.

(** The list comprehension of [_manage_pipes]. *)
Definition prune (ps : list Pipe.t) : list Pipe.t :=
  filter (fun pipe => negb (Pipe.off_screen pipe)) ps.

(** The first block of [_manage_pipes]: the counter and the spawn.
    [gap_y] is the value [random.randint(PIPE_GAP, SCREEN_HEIGHT -
    PIPE_GAP)] returns when it is called. *)
Definition spawn (gap_y : Z) (g : t) : t :=
  let c := pipe_spawn_counter g + 1 in
  if c >? 90 then
    {| bird := bird g;
       pipes := pipes g ++ [Pipe.init SCREEN_WIDTH gap_y];
       score := score g; game_over := game_over g;
       pipe_spawn_counter := 0 |}
  else
    {| bird := bird g; pipes := pipes g; score := score g;
       game_over := game_over g; pipe_spawn_counter := c |}.

(** [Game._manage_pipes] *)
Definition _manage_pipes (gap_y : Z) (g : t) : t :=
  let g1 := spawn gap_y g in
  let kept := prune (pipes g1) in
  let (ps, sc) := score_loop (Bird.x (bird g1)) kept (score g1) in
  {| bird := bird g1; pipes := ps; score := sc;
     game_over := game_over g1;
     pipe_spawn_counter := pipe_spawn_counter g1 |}.

(** The movement at the head of the playing branch of [run]. *)
Definition move_all (g : t) : t :=
  {| bird := Bird.move (bird g); pipes := map Pipe.move (pipes g);
     score := score g; game_over := game_over g;
     pipe_spawn_counter := pipe_spawn_counter g |}.

(** The state of the frame when [_check_collisions] is called. *)
Definition before_check (gap_y : Z) (g : t) : t :=
  _manage_pipes gap_y (move_all g).

(** The branch of [run] taken after the events: the update while
    playing, nothing but drawing once the game is over. *)
Definition update (gap_y : Z) (g : t) : t :=
  if negb (game_over g) then _check_collisions (before_check gap_y g)
  else g.

(** One iteration of the loop of [run]: the events of the frame, then
    the update.  [None]: the process has exited. *)
Definition frame (g : t) (events : list Event) (gap_y : Z) : option t :=
  match _handle_events g events with
  | None => None
  | Some g1 => Some (update gap_y g1)
  end.

(** [Game.run], for as many iterations as inputs are given. *)
Fixpoint run (g : t) (inputs : list (list Event * Z)) : option t :=
  match inputs with
  | [] => Some g
  | (events, gap_y) :: rest =>
      match frame g events gap_y with
      | None => None
      | Some g' => run g' rest
      end
  end.

End Game.

(** ** Reachable states and their invariant *)

(** The range of [random.randint(PIPE_GAP, SCREEN_HEIGHT - PIPE_GAP)],
    both ends included. *)
Definition valid_gap (gap_y : Z) : Prop :=
  PIPE_GAP <= gap_y <= SCREEN_HEIGHT - PIPE_GAP.

(** The states the loop of [run] can be in at the top of an iteration:
    the state [__init__] leaves, and the state after one more frame on
    any events and any gap the generator can return. *)
Inductive reachable : Game.t -> Prop :=
| reachable_init : reachable Game.init
| reachable_frame (g g' : Game.t) (events : list Event) (gap_y : Z) :
    reachable g -> valid_gap gap_y ->
    Game.frame g events gap_y = Some g' -> reachable g'.

(** No restart among the events of a frame. *)
Definition no_restart (events : list Event) : Prop :=
  ~ In (KEYDOWN K_SPACE) events.

(** The distance a pipe covers between two spawns: 91 frames of 4
    units. *)
Definition SPAWN_SPACING : Z := 364.

(** What the frames keep true of one pipe, [c] being the spawn
    counter: the constructor's speed, a gap in the generator's range, a
    position not past the removal bound, which is where the pipe
    spawned [c] frames ago has got to or a whole number of spawn
    spacings to the left of it, and the mark set exactly on the pipes
    whose right edge is left of the bird's [x], 50. *)
Definition pipe_ok (c : Z) (p : Pipe.t) : Prop :=
  Pipe.velocity p = -4 /\
  valid_gap (Pipe.gap_y p) /\
  - PIPE_WIDTH <= Pipe.x p <= SCREEN_WIDTH - 4 * c /\
  (Pipe.passed p = true <-> Pipe.x p + PIPE_WIDTH < 50) /\
  exists k, 0 <= k /\ Pipe.x p = SCREEN_WIDTH - 4 * c - SPAWN_SPACING * k.

(** Two pipes a spawn spacing apart or more, the first to the left. *)
Definition spaced (p q : Pipe.t) : Prop :=
  Pipe.x p + SPAWN_SPACING <= Pipe.x q.

(** The invariant of the reachable states. *)
Definition Inv (g : Game.t) : Prop :=
  Bird.x (Game.bird g) = 50 /\
  Bird.size (Game.bird g) = 20 /\
  0 <= Game.pipe_spawn_counter g <= 90 /\
  Forall (pipe_ok (Game.pipe_spawn_counter g)) (Game.pipes g) /\
  StronglySorted spaced (Game.pipes g).

(** The list the scoring loop of [_manage_pipes] visits in a frame that
    starts, after the events, in [g]: moved, spawned, pruned. *)
Definition visited (gap_y : Z) (g : Game.t) : list Pipe.t :=
  Game.prune (Game.pipes (Game.spawn gap_y (Game.move_all g))).

(** The mark went up between the two records of a pipe. *)
Definition became_passed (before after : Pipe.t) : bool :=
  negb (Pipe.passed before) && Pipe.passed after.

(** What the scoring loop does to one pipe, and whether it counts. *)
Definition crossing (bird_x : Z) (p : Pipe.t) : bool :=
  (Pipe.x p + PIPE_WIDTH <? bird_x) && negb (Pipe.passed p).

Definition mark (bird_x : Z) (p : Pipe.t) : Pipe.t :=
  if crossing bird_x p then Pipe.set_passed p else p.

(** What a played frame does to one pipe that is in the list when the
    frame begins: it is moved, dropped if that puts it off-screen, and
    marked if that puts it behind the bird.  [pipe_life n] follows the
    pipe through [n] played frames. *)
Definition pipe_frame (bird_x : Z) (p : Pipe.t) : option Pipe.t :=
  if Pipe.off_screen (Pipe.move p) then None
  else Some (mark bird_x (Pipe.move p)).

Fixpoint pipe_life (bird_x : Z) (n : nat) (p : Pipe.t) : option Pipe.t :=
  match n with
  | O => Some p
  | S n' =>
      match pipe_life bird_x n' p with
      | Some q => pipe_frame bird_x q
      | None => None
      end
  end.

Definition survivors (bird_x : Z) (ps : list Pipe.t) : list Pipe.t :=
  flat_map
    (fun p => match pipe_frame bird_x p with Some p' => [p'] | None => [] end)
    ps.

(** The collision test of one pipe. *)
Definition hits (bird_rect : Rect.t) (p : Pipe.t) : bool :=
  Rect.colliderect bird_rect (Pipe.get_upper_rect p) ||
  Rect.colliderect bird_rect (Pipe.get_lower_rect p).

(** ** The range of the bird's numbers

    What makes the rationals a faithful reading of the floats: in every
    reachable state [y] and the velocity are multiples of one half,
    and small.  [velocity * velocity - y] never grows under
    [Bird.move], which bounds the velocity by the height. *)

Definition half_integer (q : Q) : Prop :=
  exists m : Z, (q * 2 == inject_Z m)%Q.

Definition bird_in_range (g : Game.t) : Prop :=
  half_integer (Bird.y (Game.bird g)) /\
  half_integer (Bird.velocity (Game.bird g)) /\
  (-10 <= Bird.velocity (Game.bird g))%Q /\
  (Bird.velocity (Game.bird g) * Bird.velocity (Game.bird g)
     <= 101 + Bird.y (Game.bird g))%Q /\
  (-11 < Bird.y (Game.bird g) < 610)%Q /\
  (Game.game_over g = false -> (-1 < Bird.y (Game.bird g) < 581)%Q).

(** ** Sample sessions *)

(** The state a process started afresh is in after the given frames. *)
Definition session (inputs : list (list Event * Z)) : Game.t :=
  match Game.run Game.init inputs with
  | Some g => g
  | None => Game.init
  end.

(** A player who presses the space bar every 39th frame, which brings
    the bird back to the height it jumped from, while every pipe has
    its gap at the height given. *)
Definition script_frame (gap_y : Z) (i : nat) : list Event * Z :=
  (if Z.of_nat i mod 39 =? 0 then [KEYDOWN K_SPACE] else [], gap_y).

Definition script (gap_y : Z) (n : nat) : list (list Event * Z) :=
  map (script_frame gap_y) (seq 0 n).

(** The session with the gaps at 250, where the bird gets through. *)
Definition state_at (n : nat) : Game.t := session (script 250 n).

(** A player who never touches the keyboard. *)
Definition idle (n : nat) : list (list Event * Z) := repeat ([], 300) n.

Definition idle_at (n : nat) : Game.t := session (idle n).

(** ** Events, scenes and the count of played frames *)

(** A press of the space bar; the quit event. *)
Definition is_space (e : Event) : bool :=
  match e with
  | KEYDOWN key => key =? K_SPACE
  | _ => false
  end.

(** The game with [self.bird.jump()] done. *)
Definition jumped (g : Game.t) : Game.t :=
  Game.with_bird g (Bird.jump (Game.bird g)).

(** What [_check_collisions] tests, on the state as it stands. *)
Definition scene_collides (g : Game.t) : bool :=
  existsb (hits (Bird.get_rect (Game.bird g))) (Game.pipes g)
  || (Rect.top (Bird.get_rect (Game.bird g)) <? 0)
  || (Rect.bottom (Bird.get_rect (Game.bird g)) >? SCREEN_HEIGHT).

(** The bird is clear of a pipe: beside it, or inside its gap. *)
Definition clear_of (r : Rect.t) (p : Pipe.t) : Prop :=
  Rect.right r <= Pipe.x p \/
  Pipe.x p + PIPE_WIDTH <= Rect.left r \/
  (Pipe.gap_y p - PIPE_GAP / 2 <= Rect.top r /\
   Rect.bottom r <= Pipe.gap_y p + PIPE_GAP / 2).

(** [played n g]: the loop of [run] can be in state [g] at the top of
    an iteration, [n] frames having been played since the game was
    started or last reset.  A frame spent on the game-over screen does
    not count; the frame in which the game is reset is the first of the
    new game. *)
Definition next_index (n : nat) (g g1 : Game.t) : nat :=
  if Game.game_over g1 then n
  else if Game.game_over g then 1%nat
  else S n.

Inductive played : nat -> Game.t -> Prop :=
| played_init : played 0 Game.init
| played_frame (n : nat) (g g1 : Game.t) (events : list Event) (gap_y : Z) :
    played n g -> valid_gap gap_y ->
    Game._handle_events g events = Some g1 ->
    played (next_index n g g1) (Game.update gap_y g1).

(** Where the pipes are and what the score is after [n] played frames:
    a pipe enters at 400 every 91st frame and moves 4 a frame; the one
    before it is still in the list for the first 29 frames of the
    period; a pipe is counted 108 frames after the one that spawned
    it. *)
Definition pipe_xs (n : Z) : list Z :=
  (if (2 <=? n / 91) && (n mod 91 <=? 29) then [36 - 4 * (n mod 91)] else [])
  ++ (if 1 <=? n / 91 then [400 - 4 * (n mod 91)] else []).

Definition score_after (n : Z) : Z := Z.max 0 ((n - 108) / 91).

(** The count of played frames at the end of a session that starts in
    [g] with [n] frames played. *)
Fixpoint count_played (g : Game.t) (n : nat) (inputs : list (list Event * Z))
  : nat :=
  match inputs with
  | [] => n
  | (events, gap_y) :: rest =>
      match Game._handle_events g events with
      | None => n
      | Some g1 =>
          count_played (Game.update gap_y g1) (next_index n g g1) rest
      end
  end.

(** A pipe at [x] has got behind the bird with its last move. *)
Definition just_passed (x : Z) : bool :=
  (x + PIPE_WIDTH <? 50) && negb (x + 4 + PIPE_WIDTH <? 50).

(** The three facts of the timeline, [n] frames into a game. *)
Definition timeline (n : Z) (g : Game.t) : Prop :=
  Game.pipe_spawn_counter g = n mod 91 /\
  map Pipe.x (Game.pipes g) = pipe_xs n /\
  Game.score g = score_after n.

(** ** Drawing

    The calls a [draw] method makes on the screen ([pygame.draw.circle],
    [pygame.draw.rect]), in order.  A rectangle is drawn filled when no
    width is given (width 0), else as a border of that width. *)

Definition Color : Type := (Z * Z * Z)%type.

Definition WHITE : Color := (255, 255, 255).
Definition BLACK : Color := (0, 0, 0).
Definition GREEN : Color := (0, 150, 0).
Definition SKY_BLUE : Color := (135, 206, 235).
Definition YELLOW : Color := (255, 255, 0).

Inductive DrawCall : Type :=
| draw_circle (color : Color) (center : Z * Z) (radius : Z)
| draw_rect (color : Color) (rect : Rect.t) (width : Z).

(** [Bird.draw]: [self.size / 2] is a float division, and [int]
    truncates toward zero.  The sum [y + size / 2] is exact, as the
    float sum is on the half-integers the game produces. *)
Definition Bird_draw (b : Bird.t) : list DrawCall :=
  [draw_circle YELLOW
     (int_of_float (inject_Z (Bird.x b) + inject_Z (Bird.size b) / 2),
      int_of_float (Bird.y b + inject_Z (Bird.size b) / 2))
     (Bird.size b);
   draw_rect BLACK (Bird.get_rect b) 1].

(** ** More sample sessions and the accounts of a game *)

(** A player who climbs to the top of the screen: after [climb] the
    bird's [y] is -0.5. *)
Definition press : list Event * Z := ([KEYDOWN K_SPACE], 300).
Definition wait : list Event * Z := ([], 300).

Definition climb_before : list (list Event * Z) :=
  [press; wait; wait; wait; press; wait] ++ repeat press 25.

Definition climb : list (list Event * Z) := climb_before ++ [press].

(** A state the game cannot be in, with three pipes two of which get
    behind the bird in the same frame. *)
Definition crowded : Game.t :=
  {| Game.bird := Bird.init;
     Game.pipes :=
       [Pipe.mk (-28) 200 (-4) false; Pipe.mk (-27) 300 (-4) false;
        Pipe.mk 100 250 (-4) false];
     Game.score := 5; Game.game_over := false;
     Game.pipe_spawn_counter := 10 |}.

(** The number of marked pipes of a list. *)
Definition marked (ps : list Pipe.t) : Z :=
  Z.of_nat (length (filter Pipe.passed ps)).

(** The number of pipes the list comprehension of [_manage_pipes]
    drops in a played frame that starts, after the events, in [g]. *)
Definition removed_in_frame (gap_y : Z) (g : Game.t) : Z :=
  Z.of_nat (length (Game.pipes (Game.spawn gap_y (Game.move_all g))))
  - Z.of_nat
      (length (Game.prune (Game.pipes (Game.spawn gap_y (Game.move_all g))))).

(** The number of pipes dropped so far in the game that is on at the
    end of a session, the session starting in [g] with [acc] pipes
    dropped: a played frame adds what it drops, a frame on the
    game-over screen nothing, and a reset starts the count anew. *)
Fixpoint removed_so_far (g : Game.t) (acc : Z)
  (inputs : list (list Event * Z)) : Z :=
  match inputs with
  | [] => acc
  | (events, gap_y) :: rest =>
      match Game._handle_events g events with
      | None => acc
      | Some g1 =>
          if Game.game_over g1
          then removed_so_far (Game.update gap_y g1) acc rest
          else removed_so_far (Game.update gap_y g1)
                 ((if Game.game_over g then 0 else acc)
                  + removed_in_frame gap_y g1)
                 rest
      end
  end.

(** * Properties *)

(** Conjunctions of closed facts about the sample sessions are split
    into their parts, and each part is evaluated. *)
Ltac split_all :=
  repeat match goal with |- _ /\ _ => split end.

Ltac by_evaluation := vm_compute; reflexivity.

(** ** The two loops in closed form *)

Lemma score_loop_spec (bird_x : Z) (ps : list Pipe.t) (sc : Z) :
  Game.score_loop bird_x ps sc =
  (map (mark bird_x) ps,
   sc + Z.of_nat (length (filter (crossing bird_x) ps))).
Proof.
  revert sc.
  induction ps as [|p rest IH]; intro sc; simpl.
  - f_equal. lia.
  - unfold mark at 1.
    change ((Pipe.x p + PIPE_WIDTH <? bird_x) && negb (Pipe.passed p))
      with (crossing bird_x p).
    destruct (crossing bird_x p); rewrite IH; simpl; f_equal; lia.
Qed.

Lemma collide_loop_spec (r : Rect.t) (ps : list Pipe.t) (over : bool) :
  Game.collide_loop r ps over = over || existsb (hits r) ps.
Proof.
  revert over.
  induction ps as [|p rest IH]; intro over; simpl.
  - now rewrite orb_false_r.
  - rewrite IH. fold (hits r p).
    destruct (hits r p), over; reflexivity.
Qed.

Lemma colliderect_overlaps (a b : Rect.t) :
  0 < Rect.w a -> 0 < Rect.h a -> 0 < Rect.w b -> 0 < Rect.h b ->
  Rect.colliderect a b = true <-> Rect.overlaps a b.
Proof.
  intros Hwa Hha Hwb Hhb.
  unfold Rect.colliderect, Rect.overlaps,
    Rect.left, Rect.right, Rect.top, Rect.bottom.
  replace (Rect.w a =? 0) with false by (symmetry; apply Z.eqb_neq; lia).
  replace (Rect.h a =? 0) with false by (symmetry; apply Z.eqb_neq; lia).
  replace (Rect.w b =? 0) with false by (symmetry; apply Z.eqb_neq; lia).
  replace (Rect.h b =? 0) with false by (symmetry; apply Z.eqb_neq; lia).
  simpl.
  rewrite !andb_true_iff, !Z.ltb_lt, !Z.gtb_gt.
  lia.
Qed.

(** ** Single steps *)

Lemma mark_x (bx : Z) (p : Pipe.t) : Pipe.x (mark bx p) = Pipe.x p.
Proof. unfold mark. now destruct (crossing bx p). Qed.

Lemma mark_gap_y (bx : Z) (p : Pipe.t) :
  Pipe.gap_y (mark bx p) = Pipe.gap_y p.
Proof. unfold mark. now destruct (crossing bx p). Qed.

Lemma mark_velocity (bx : Z) (p : Pipe.t) :
  Pipe.velocity (mark bx p) = Pipe.velocity p.
Proof. unfold mark. now destruct (crossing bx p). Qed.

Lemma mark_passed (bx : Z) (p : Pipe.t) :
  Pipe.passed (mark bx p) = true <->
  Pipe.passed p = true \/ Pipe.x p + PIPE_WIDTH < bx.
Proof.
  unfold mark, crossing.
  destruct (Z.ltb_spec (Pipe.x p + PIPE_WIDTH) bx) as [Hlt|Hge],
    (Pipe.passed p) eqn:Hp; simpl; rewrite ?Hp; intuition (try lia; try congruence).
Qed.

Lemma became_passed_mark (bx : Z) (p : Pipe.t) :
  became_passed p (mark bx p) = crossing bx p.
Proof.
  unfold became_passed, mark.
  destruct (crossing bx p) eqn:Hc; simpl.
  - unfold crossing in Hc. apply andb_true_iff in Hc as [_ Hc].
    now rewrite Hc.
  - now destruct (Pipe.passed p).
Qed.

Lemma mark_fresh (bx gap_y : Z) :
  bx <= SCREEN_WIDTH + PIPE_WIDTH ->
  mark bx (Pipe.init SCREEN_WIDTH gap_y) = Pipe.init SCREEN_WIDTH gap_y.
Proof.
  intro H. unfold mark, crossing, Pipe.init; cbn [Pipe.x Pipe.passed].
  destruct (Z.ltb_spec (SCREEN_WIDTH + PIPE_WIDTH) bx); [lia|reflexivity].
Qed.

Lemma manage_pipes_eq (gap_y : Z) (g : Game.t) :
  Game._manage_pipes gap_y g =
  let g1 := Game.spawn gap_y g in
  let kept := Game.prune (Game.pipes g1) in
  {| Game.bird := Game.bird g;
     Game.pipes := map (mark (Bird.x (Game.bird g))) kept;
     Game.score :=
       Game.score g +
       Z.of_nat (length (filter (crossing (Bird.x (Game.bird g))) kept));
     Game.game_over := Game.game_over g;
     Game.pipe_spawn_counter := Game.pipe_spawn_counter g1 |}.
Proof.
  unfold Game._manage_pipes. rewrite score_loop_spec. simpl.
  unfold Game.spawn.
  destruct (Game.pipe_spawn_counter g + 1 >? 90); reflexivity.
Qed.

Lemma check_collisions_eq (g : Game.t) :
  Game._check_collisions g =
  Game.with_game_over g
    (Game.game_over g
     || existsb (hits (Bird.get_rect (Game.bird g))) (Game.pipes g)
     || (Rect.top (Bird.get_rect (Game.bird g)) <? 0)
     || (Rect.bottom (Bird.get_rect (Game.bird g)) >? SCREEN_HEIGHT)).
Proof.
  unfold Game._check_collisions. rewrite collide_loop_spec.
  f_equal.
  destruct (Rect.top _ <? 0), (Rect.bottom _ >? SCREEN_HEIGHT),
    (Game.game_over g), (existsb _ _); reflexivity.
Qed.

(** ** Sorted lists under the list operations of a frame *)

Section SortedLists.

Context {A B : Type}.
Variables (R : A -> A -> Prop) (R' : B -> B -> Prop).

Lemma StronglySorted_map_in (f : A -> B) (l : list A) :
  StronglySorted R l ->
  (forall a b, In a l -> In b l -> R a b -> R' (f a) (f b)) ->
  StronglySorted R' (map f l).
Proof.
  induction 1 as [|a l Hl IH Ha]; intro Hf; simpl; constructor.
  - apply IH. intros x y Hx Hy. apply Hf; now right.
  - apply Forall_forall. intros y Hy.
    apply in_map_iff in Hy as [x [<- Hx]].
    apply Hf; [now left | now right |].
    rewrite Forall_forall in Ha. now apply Ha.
Qed.

Lemma StronglySorted_keep (k : A -> bool) (l : list A) :
  StronglySorted R l -> StronglySorted R (filter k l).
Proof.
  induction 1 as [|a l Hl IH Ha]; simpl; [constructor|].
  destruct (k a); [|exact IH].
  constructor; [exact IH|].
  apply Forall_forall. intros y Hy. apply filter_In in Hy as [Hy _].
  rewrite Forall_forall in Ha. now apply Ha.
Qed.

Lemma StronglySorted_snoc (l : list A) (z : A) :
  StronglySorted R l -> Forall (fun a => R a z) l ->
  StronglySorted R (l ++ [z]).
Proof.
  induction 1 as [|a l Hl IH Ha]; intro Hz; simpl.
  - repeat constructor.
  - inversion Hz as [|? ? Haz Hlz]; subst.
    constructor; [now apply IH|].
    apply Forall_app. split; [exact Ha | now constructor].
Qed.

Lemma StronglySorted_nth (l : list A) (i j : nat) (a b : A) :
  StronglySorted R l -> (i < j)%nat ->
  nth_error l i = Some a -> nth_error l j = Some b -> R a b.
Proof.
  intro Hs. revert i j.
  induction Hs as [|x l Hl IH Hx]; intros i j Hij Hi Hj.
  - now destruct i.
  - destruct j as [|j]; [lia|]. simpl in Hj.
    destruct i as [|i]; simpl in Hi.
    + injection Hi as <-. rewrite Forall_forall in Hx.
      apply Hx. eapply nth_error_In; eassumption.
    + apply (IH i j); [lia | assumption | assumption].
Qed.

End SortedLists.

(** ** The invariant holds in every reachable state *)

Lemma Inv_init : Inv Game.init.
Proof.
  unfold Inv; simpl. repeat split; try lia; constructor.
Qed.

Lemma Inv_handle_event (g g' : Game.t) (e : Event) :
  Inv g -> Game.handle_event g e = Some g' -> Inv g'.
Proof.
  intros HI He. destruct e as [|key|]; simpl in He;
    [discriminate | | now injection He as <-].
  injection He as <-.
  destruct (Game.game_over g) eqn:Hover; simpl; rewrite ?Hover.
  - destruct (key =? K_SPACE); [apply Inv_init | exact HI].
  - destruct (key =? K_SPACE); simpl; rewrite ?Hover; [|exact HI].
    exact HI.
Qed.

Lemma Inv_handle_events (events : list Event) (g g' : Game.t) :
  Inv g -> Game._handle_events g events = Some g' -> Inv g'.
Proof.
  revert g. induction events as [|e rest IH]; intros g HI He; simpl in He.
  - now injection He as <-.
  - destruct (Game.handle_event g e) as [g1|] eqn:H1; [|discriminate].
    apply (IH g1); [|exact He].
    eapply Inv_handle_event; eassumption.
Qed.

Lemma pipe_ok_fresh (gap_y : Z) :
  valid_gap gap_y -> pipe_ok 0 (mark 50 (Pipe.init SCREEN_WIDTH gap_y)).
Proof.
  intro Hg. rewrite mark_fresh by (unfold SCREEN_WIDTH, PIPE_WIDTH; lia).
  unfold pipe_ok, Pipe.init; cbn [Pipe.x Pipe.velocity Pipe.gap_y Pipe.passed].
  unfold SCREEN_WIDTH, PIPE_WIDTH, SPAWN_SPACING.
  split; [reflexivity|]. split; [exact Hg|]. split; [lia|].
  split; [split; [discriminate | lia]|].
  exists 0. lia.
Qed.

Lemma pipe_ok_step (c c' : Z) (p : Pipe.t) :
  pipe_ok c p -> c' = c + 1 \/ (c' = 0 /\ c = 90) ->
  Pipe.off_screen (Pipe.move p) = false ->
  pipe_ok c' (mark 50 (Pipe.move p)).
Proof.
  intros (Hv & Hg & Hx & Hp & k & Hk0 & Hk) Hc Hoff.
  unfold Pipe.off_screen in Hoff. apply Z.ltb_ge in Hoff.
  unfold pipe_ok.
  rewrite mark_velocity, mark_gap_y, mark_x, mark_passed.
  unfold Pipe.move in Hoff |- *.
  cbn [Pipe.x Pipe.velocity Pipe.gap_y Pipe.passed] in Hoff |- *.
  rewrite Hv in Hoff |- *.
  unfold PIPE_WIDTH, SCREEN_WIDTH, SPAWN_SPACING in *.
  split; [reflexivity|]. split; [exact Hg|]. split; [lia|].
  split; [split|].
  - intros [H|H]; [apply Hp in H|]; lia.
  - intro H. right. lia.
  - destruct Hc as [->|[-> ->]]; [exists k | exists (k + 1)]; lia.
Qed.

Lemma spawn_counter (gap_y : Z) (g : Game.t) :
  Game.pipe_spawn_counter (Game.spawn gap_y g) =
  if Game.pipe_spawn_counter g + 1 >? 90 then 0
  else Game.pipe_spawn_counter g + 1.
Proof.
  unfold Game.spawn. now destruct (Game.pipe_spawn_counter g + 1 >? 90).
Qed.

Lemma visited_eq (gap_y : Z) (g : Game.t) :
  visited gap_y g =
  Game.prune
    (if Game.pipe_spawn_counter g + 1 >? 90
     then map Pipe.move (Game.pipes g) ++ [Pipe.init SCREEN_WIDTH gap_y]
     else map Pipe.move (Game.pipes g)).
Proof.
  unfold visited, Game.spawn, Game.move_all; simpl.
  now destruct (Game.pipe_spawn_counter g + 1 >? 90).
Qed.

Lemma prune_snoc_fresh (ps : list Pipe.t) (gap_y : Z) :
  Game.prune (ps ++ [Pipe.init SCREEN_WIDTH gap_y]) =
  Game.prune ps ++ [Pipe.init SCREEN_WIDTH gap_y].
Proof.
  unfold Game.prune. now rewrite filter_app.
Qed.

(** Where the pipes the scoring loop visits come from. *)
Lemma In_visited (gap_y : Z) (g : Game.t) (p : Pipe.t) :
  In p (visited gap_y g) ->
  (exists q, In q (Game.pipes g) /\ p = Pipe.move q /\
             Pipe.off_screen p = false) \/
  (Game.pipe_spawn_counter g + 1 > 90 /\ p = Pipe.init SCREEN_WIDTH gap_y).
Proof.
  rewrite visited_eq. unfold Game.prune. intro Hin.
  apply filter_In in Hin as [Hin Hk]. apply negb_true_iff in Hk.
  destruct (Z.gtb_spec (Game.pipe_spawn_counter g + 1) 90) as [Hc|Hc].
  - apply in_app_or in Hin as [Hin|[<-|[]]].
    + left. apply in_map_iff in Hin as [q [<- Hq]]. now exists q.
    + right. split; [lia | reflexivity].
  - left. apply in_map_iff in Hin as [q [<- Hq]]. now exists q.
Qed.

Lemma visited_ok (gap_y : Z) (g : Game.t) :
  Inv g -> valid_gap gap_y ->
  Forall
    (pipe_ok (Game.pipe_spawn_counter (Game.spawn gap_y (Game.move_all g))))
    (map (mark 50) (visited gap_y g)).
Proof.
  intros (_ & _ & Hc & Hok & _) Hgap.
  rewrite spawn_counter.
  change (Game.pipe_spawn_counter (Game.move_all g))
    with (Game.pipe_spawn_counter g).
  apply Forall_forall. intros p' Hp'.
  apply in_map_iff in Hp' as [p [<- Hp]].
  rewrite Forall_forall in Hok.
  apply In_visited in Hp as [[q (Hq & -> & Hoff)] | [Hgt ->]].
  - apply (pipe_ok_step (Game.pipe_spawn_counter g)); auto.
    destruct (Z.gtb_spec (Game.pipe_spawn_counter g + 1) 90); lia.
  - destruct (Z.gtb_spec (Game.pipe_spawn_counter g + 1) 90); [|lia].
    now apply pipe_ok_fresh.
Qed.

Lemma visited_sorted (gap_y : Z) (g : Game.t) :
  Inv g -> StronglySorted spaced (visited gap_y g).
Proof.
  intros (_ & _ & Hc & Hok & Hs).
  rewrite Forall_forall in Hok.
  assert (Hm : StronglySorted spaced (map Pipe.move (Game.pipes g))).
  { apply (StronglySorted_map_in spaced spaced); [exact Hs|].
    intros a b Ha Hb Hab.
    destruct (Hok a Ha) as (Hva & _), (Hok b Hb) as (Hvb & _).
    unfold spaced, Pipe.move in *; cbn [Pipe.x]. lia. }
  rewrite visited_eq. unfold Game.prune.
  apply StronglySorted_keep.
  destruct (Z.gtb_spec (Game.pipe_spawn_counter g + 1) 90) as [Hgt|Hle];
    [|exact Hm].
  apply StronglySorted_snoc; [exact Hm|].
  apply Forall_forall. intros p Hp.
  apply in_map_iff in Hp as [q [<- Hq]].
  destruct (Hok q Hq) as (Hv & _ & Hx & _).
  unfold spaced, Pipe.move, Pipe.init, SPAWN_SPACING, SCREEN_WIDTH in *;
    cbn [Pipe.x]. lia.
Qed.

Lemma Inv_before_check (gap_y : Z) (g : Game.t) :
  valid_gap gap_y -> Inv g -> Inv (Game.before_check gap_y g).
Proof.
  intros Hgap HI. unfold Game.before_check.
  rewrite manage_pipes_eq.
  pose proof (visited_ok gap_y g HI Hgap) as Hok.
  pose proof (visited_sorted gap_y g HI) as Hs.
  destruct HI as (Hbx & Hbs & Hc & _ & _).
  unfold Inv. cbn [Game.bird Game.pipes
    Game.pipe_spawn_counter Game.move_all Bird.move Bird.x Bird.size].
  fold (visited gap_y g).
  change (Bird.x (Game.bird (Game.move_all g))) with (Bird.x (Game.bird g)).
  rewrite Hbx.
  split; [reflexivity|]. split; [exact Hbs|].
  split.
  { rewrite spawn_counter.
    change (Game.pipe_spawn_counter (Game.move_all g))
      with (Game.pipe_spawn_counter g).
    destruct (Z.gtb_spec (Game.pipe_spawn_counter g + 1) 90); lia. }
  split; [exact Hok|].
  apply (StronglySorted_map_in spaced spaced); [exact Hs|].
  intros a b _ _. unfold spaced. now rewrite !mark_x.
Qed.

Lemma Inv_update (gap_y : Z) (g : Game.t) :
  valid_gap gap_y -> Inv g -> Inv (Game.update gap_y g).
Proof.
  intros Hgap HI. unfold Game.update.
  destruct (Game.game_over g); [exact HI|]. cbn [negb].
  rewrite check_collisions_eq.
  exact (Inv_before_check gap_y g Hgap HI).
Qed.

Lemma Inv_frame (g g' : Game.t) (events : list Event) (gap_y : Z) :
  valid_gap gap_y -> Inv g -> Game.frame g events gap_y = Some g' ->
  Inv g'.
Proof.
  intros Hgap HI Hf. unfold Game.frame in Hf.
  destruct (Game._handle_events g events) as [g1|] eqn:He; [|discriminate].
  injection Hf as <-.
  apply Inv_update; [exact Hgap|].
  eapply Inv_handle_events; eassumption.
Qed.

Lemma reachable_Inv (g : Game.t) : reachable g -> Inv g.
Proof.
  induction 1 as [|g g' events gap_y _ IH Hgap Hf].
  - exact Inv_init.
  - eapply Inv_frame; eassumption.
Qed.

(** ** The sample session is a run of the game *)

Lemma run_reachable (inputs : list (list Event * Z)) (g g' : Game.t) :
  Forall (fun i => valid_gap (snd i)) inputs ->
  reachable g -> Game.run g inputs = Some g' -> reachable g'.
Proof.
  revert g. induction inputs as [|[events gap_y] rest IH];
    intros g Hv Hr Hrun; simpl in Hrun.
  - now injection Hrun as <-.
  - inversion Hv as [|? ? Hgap Hrest]; subst.
    destruct (Game.frame g events gap_y) as [g1|] eqn:Hf; [|discriminate].
    apply (IH g1); [exact Hrest | | exact Hrun].
    eapply reachable_frame; eassumption.
Qed.

Lemma script_valid (gap_y : Z) (n : nat) :
  valid_gap gap_y -> Forall (fun i => valid_gap (snd i)) (script gap_y n).
Proof.
  intro Hg. unfold script. apply Forall_forall. intros i Hi.
  apply in_map_iff in Hi as [k [<- _]]. exact Hg.
Qed.

Lemma session_reachable (inputs : list (list Event * Z)) :
  Forall (fun i => valid_gap (snd i)) inputs -> reachable (session inputs).
Proof.
  intro Hv. unfold session.
  destruct (Game.run Game.init inputs) as [g|] eqn:Hrun.
  - eapply run_reachable; [exact Hv | apply reachable_init | exact Hrun].
  - apply reachable_init.
Qed.

Lemma state_at_reachable (n : nat) : reachable (state_at n).
Proof.
  apply session_reachable, script_valid.
  unfold valid_gap, PIPE_GAP, SCREEN_HEIGHT. lia.
Qed.

Lemma idle_at_reachable (n : nat) : reachable (idle_at n).
Proof.
  apply session_reachable. unfold idle.
  apply Forall_forall. intros i Hi. apply repeat_spec in Hi. subst i.
  unfold valid_gap, PIPE_GAP, SCREEN_HEIGHT; simpl. lia.
Qed.

Lemma valid_gap_250 : valid_gap 250.
Proof. unfold valid_gap, PIPE_GAP, SCREEN_HEIGHT. lia. Qed.

Lemma valid_gap_300 : valid_gap 300.
Proof. unfold valid_gap, PIPE_GAP, SCREEN_HEIGHT. lia. Qed.

(** ** The frame in closed form *)

Lemma before_check_eq (gap_y : Z) (g : Game.t) :
  Game.before_check gap_y g =
  {| Game.bird := Bird.move (Game.bird g);
     Game.pipes := map (mark (Bird.x (Game.bird g))) (visited gap_y g);
     Game.score :=
       Game.score g +
       Z.of_nat
         (length (filter (crossing (Bird.x (Game.bird g))) (visited gap_y g)));
     Game.game_over := Game.game_over g;
     Game.pipe_spawn_counter :=
       if Game.pipe_spawn_counter g + 1 >? 90 then 0
       else Game.pipe_spawn_counter g + 1 |}.
Proof.
  unfold Game.before_check. rewrite manage_pipes_eq.
  cbv zeta. rewrite spawn_counter. reflexivity.
Qed.

Lemma update_playing (gap_y : Z) (g : Game.t) :
  Game.game_over g = false ->
  Game.update gap_y g = Game._check_collisions (Game.before_check gap_y g).
Proof. intro H. unfold Game.update. now rewrite H. Qed.

Lemma update_over (gap_y : Z) (g : Game.t) :
  Game.game_over g = true -> Game.update gap_y g = g.
Proof. intro H. unfold Game.update. now rewrite H. Qed.

Lemma frame_playing (g g1 : Game.t) (events : list Event) (gap_y : Z) :
  Game._handle_events g events = Some g1 ->
  Game.game_over g1 = false ->
  Game.frame g events gap_y =
  Some (Game._check_collisions (Game.before_check gap_y g1)).
Proof.
  intros He Hp. unfold Game.frame. rewrite He.
  now rewrite update_playing.
Qed.

(** ** Collision (C1) *)

Lemma hits_overlaps (b : Bird.t) (c : Z) (p : Pipe.t) :
  Bird.size b = 20 -> pipe_ok c p ->
  hits (Bird.get_rect b) p = true <->
  Rect.overlaps (Bird.get_rect b) (Pipe.get_upper_rect p) \/
  Rect.overlaps (Bird.get_rect b) (Pipe.get_lower_rect p).
Proof.
  intros Hs (_ & Hg & _ & _).
  unfold valid_gap, PIPE_GAP, SCREEN_HEIGHT in Hg.
  unfold hits. rewrite orb_true_iff.
  rewrite !colliderect_overlaps; [reflexivity | | | | | | | | ];
    unfold Bird.get_rect, Pipe.get_lower_rect, Pipe.get_upper_rect;
    cbn [Rect.w Rect.h]; rewrite ?Hs;
    unfold PIPE_WIDTH, PIPE_GAP, SCREEN_HEIGHT;
    change (150 / 2) with 75; lia.
Qed.

Lemma int_of_float_neg_iff (q : Q) :
  int_of_float q < 0 <-> (q <= -1)%Q.
Proof.
  destruct q as [a b]. unfold int_of_float, Qle; cbn [Qnum Qden].
  pose proof (Z.quot_rem' a (Zpos b)) as Hqr.
  destruct (Z.lt_ge_cases a 0) as [Hneg|Hpos].
  - pose proof (Z.rem_bound_pos_neg a (Zpos b)) as Hb. split; intro H; nia.
  - pose proof (Z.rem_bound_pos_pos a (Zpos b)) as Hb. split; intro H; nia.
Qed.

Lemma int_of_float_ge_iff (q : Q) (n : Z) :
  0 < n -> n <= int_of_float q <-> (inject_Z n <= q)%Q.
Proof.
  intro Hn.
  destruct q as [a b]. unfold int_of_float, Qle, inject_Z; cbn [Qnum Qden].
  pose proof (Z.quot_rem' a (Zpos b)) as Hqr.
  destruct (Z.lt_ge_cases a 0) as [Hneg|Hpos].
  - pose proof (Z.rem_bound_pos_neg a (Zpos b)) as Hb. split; intro H; nia.
  - pose proof (Z.rem_bound_pos_pos a (Zpos b)) as Hb. split; intro H; nia.
Qed.

(** C1, as the code has it.  In a frame that is played (the game is
    not over once the events are handled), the bird has moved
    ([velocity] up by [GRAVITY], [y] up by the new velocity) and the
    pipes are the moved ones still on screen, marked where they got
    behind the bird, followed by the new pipe if one is spawned.  The
    bird's collision rectangle is the [pygame.Rect] of [get_rect],
    whose coordinates are whole numbers: left 50, top [y] truncated
    toward zero, 20 wide and high.  The game is over at the end of the
    frame exactly when that rectangle strictly overlaps the upper or
    the lower rectangle of a pipe of the list, or its top is below 0,
    which is when [y <= -1], or its bottom is above [SCREEN_HEIGHT],
    which is when [y >= 581]; otherwise the game goes on. *)
Theorem game_over_iff_collision
  (g g1 : Game.t) (events : list Event) (gap_y : Z) :
  reachable g -> valid_gap gap_y ->
  Game._handle_events g events = Some g1 ->
  Game.game_over g1 = false ->
  exists g',
    Game.frame g events gap_y = Some g' /\
    (Bird.velocity (Game.bird g')
       == Bird.velocity (Game.bird g1) + GRAVITY)%Q /\
    (Bird.y (Game.bird g')
       == Bird.y (Game.bird g1) + Bird.velocity (Game.bird g'))%Q /\
    Game.pipes g' =
      map (mark 50) (Game.prune (map Pipe.move (Game.pipes g1))) ++
      (if Game.pipe_spawn_counter g1 + 1 >? 90
       then [Pipe.init SCREEN_WIDTH gap_y] else []) /\
    Bird.get_rect (Game.bird g') =
      Rect.mk 50 (int_of_float (Bird.y (Game.bird g'))) 20 20 /\
    (Rect.top (Bird.get_rect (Game.bird g')) < 0 <->
     (Bird.y (Game.bird g') <= -1)%Q) /\
    (Rect.bottom (Bird.get_rect (Game.bird g')) > SCREEN_HEIGHT <->
     (581 <= Bird.y (Game.bird g'))%Q) /\
    (Game.game_over g' = true <->
       (exists pipe, In pipe (Game.pipes g') /\
          (Rect.overlaps (Bird.get_rect (Game.bird g'))
             (Pipe.get_upper_rect pipe) \/
           Rect.overlaps (Bird.get_rect (Game.bird g'))
             (Pipe.get_lower_rect pipe))) \/
       Rect.top (Bird.get_rect (Game.bird g')) < 0 \/
       Rect.bottom (Bird.get_rect (Game.bird g')) > SCREEN_HEIGHT).
Proof.
  intros Hr Hgap He Hplay.
  exists (Game._check_collisions (Game.before_check gap_y g1)).
  split; [now apply frame_playing|].
  assert (HI1 : Inv g1)
    by (eapply Inv_handle_events; [apply reachable_Inv|]; eassumption).
  assert (HI : Inv (Game.before_check gap_y g1))
    by now apply Inv_before_check.
  destruct HI1 as (Hbx1 & Hsize1 & _).
  destruct HI as (Hbx & Hsize & _ & Hok & _).
  rewrite Forall_forall in Hok.
  rewrite check_collisions_eq.
  cbn [Game.with_game_over Game.bird Game.pipes Game.game_over].
  assert (Hm : Game.game_over (Game.before_check gap_y g1) = false)
    by (rewrite before_check_eq; exact Hplay).
  rewrite Hm. cbn [orb].
  assert (Hb : Game.bird (Game.before_check gap_y g1)
               = Bird.move (Game.bird g1))
    by now rewrite before_check_eq.
  assert (Hrect : Bird.get_rect (Game.bird (Game.before_check gap_y g1)) =
                  Rect.mk 50
                    (int_of_float
                       (Bird.y (Game.bird (Game.before_check gap_y g1))))
                    20 20).
  { unfold Bird.get_rect. now rewrite Hbx, Hsize. }
  assert (Htop : Rect.top (Bird.get_rect
                             (Game.bird (Game.before_check gap_y g1))) < 0
                 <-> (Bird.y (Game.bird (Game.before_check gap_y g1))
                        <= -1)%Q).
  { rewrite Hrect. unfold Rect.top; cbn [Rect.y].
    apply int_of_float_neg_iff. }
  assert (Hbot : Rect.bottom (Bird.get_rect
                                (Game.bird (Game.before_check gap_y g1)))
                   > SCREEN_HEIGHT
                 <-> (581 <= Bird.y (Game.bird (Game.before_check gap_y g1)))%Q).
  { rewrite Hrect. unfold Rect.bottom, SCREEN_HEIGHT; cbn [Rect.y Rect.h].
    change 581%Q with (inject_Z 581).
    rewrite <- int_of_float_ge_iff by lia. lia. }
  split; [rewrite Hb; unfold Bird.move; cbn [Bird.velocity];
          apply Qred_correct|].
  split; [rewrite Hb; unfold Bird.move; cbn [Bird.velocity Bird.y];
          apply Qred_correct|].
  split.
  { rewrite before_check_eq. cbn [Game.pipes]. rewrite Hbx1, visited_eq.
    destruct (Game.pipe_spawn_counter g1 + 1 >? 90);
      [|now rewrite app_nil_r].
    rewrite prune_snoc_fresh, map_app. cbn [map].
    rewrite mark_fresh; [reflexivity|].
    unfold SCREEN_WIDTH, PIPE_WIDTH. lia. }
  split; [exact Hrect|]. split; [exact Htop|]. split; [exact Hbot|].
  rewrite !orb_true_iff, existsb_exists, Z.ltb_lt, Z.gtb_gt.
  assert (Hex :
    (exists p, In p (Game.pipes (Game.before_check gap_y g1)) /\
       hits (Bird.get_rect (Game.bird (Game.before_check gap_y g1))) p
       = true) <->
    (exists pipe, In pipe (Game.pipes (Game.before_check gap_y g1)) /\
       (Rect.overlaps
          (Bird.get_rect (Game.bird (Game.before_check gap_y g1)))
          (Pipe.get_upper_rect pipe) \/
        Rect.overlaps
          (Bird.get_rect (Game.bird (Game.before_check gap_y g1)))
          (Pipe.get_lower_rect pipe)))).
  { split; intros [p [Hin Hp]]; exists p; (split; [exact Hin|]);
      eapply (hits_overlaps _ _ p Hsize (Hok p Hin)); exact Hp. }
  rewrite Hex. tauto.
Qed.

Lemma game_over_iff_collision_witness :
  reachable (idle_at 33) /\ valid_gap 300 /\
  Game._handle_events (idle_at 33) [] = Some (idle_at 33) /\
  Game.game_over (idle_at 33) = false /\
  exists g',
    Game.frame (idle_at 33) [] 300 = Some g' /\
    (Bird.velocity (Game.bird g')
       == Bird.velocity (Game.bird (idle_at 33)) + GRAVITY)%Q /\
    (Bird.y (Game.bird g')
       == Bird.y (Game.bird (idle_at 33)) + Bird.velocity (Game.bird g'))%Q /\
    Game.pipes g' =
      map (mark 50) (Game.prune (map Pipe.move (Game.pipes (idle_at 33)))) ++
      (if Game.pipe_spawn_counter (idle_at 33) + 1 >? 90
       then [Pipe.init SCREEN_WIDTH 300] else []) /\
    Bird.get_rect (Game.bird g') =
      Rect.mk 50 (int_of_float (Bird.y (Game.bird g'))) 20 20 /\
    (Rect.top (Bird.get_rect (Game.bird g')) < 0 <->
     (Bird.y (Game.bird g') <= -1)%Q) /\
    (Rect.bottom (Bird.get_rect (Game.bird g')) > SCREEN_HEIGHT <->
     (581 <= Bird.y (Game.bird g'))%Q) /\
    (Game.game_over g' = true <->
       (exists pipe, In pipe (Game.pipes g') /\
          (Rect.overlaps (Bird.get_rect (Game.bird g'))
             (Pipe.get_upper_rect pipe) \/
           Rect.overlaps (Bird.get_rect (Game.bird g'))
             (Pipe.get_lower_rect pipe))) \/
       Rect.top (Bird.get_rect (Game.bird g')) < 0 \/
       Rect.bottom (Bird.get_rect (Game.bird g')) > SCREEN_HEIGHT).
Proof.
  split; [apply idle_at_reachable|].
  split; [exact valid_gap_300|].
  split; [reflexivity|].
  split; [vm_compute; reflexivity|].
  apply (game_over_iff_collision (idle_at 33) (idle_at 33) [] 300).
  - apply idle_at_reachable.
  - exact valid_gap_300.
  - reflexivity.
  - vm_compute; reflexivity.
Defined.

(** The box anchored at [(x, y)] with side [size] is not what the code
    tests.  Left alone, the bird is at [y = 580.5] after 33 frames: the
    bottom of that box is at 600.5, beyond the screen height, and the
    game goes on (the rectangle's bottom is at 600).  And the player of
    [climb] brings the bird to [y = -0.5]: the top of the box is above
    the screen, and the game goes on (the rectangle's top is at 0). *)
Lemma box_anchored_at_y_counterexample :
  (reachable (idle_at 32) /\
   Game.game_over (idle_at 32) = false /\
   Game.frame (idle_at 32) [] 300 = Some (idle_at 33) /\
   Bird.y (Game.bird (idle_at 33)) = 1161 # 2 /\
   (inject_Z SCREEN_HEIGHT
    < Bird.y (Game.bird (idle_at 33))
      + inject_Z (Bird.size (Game.bird (idle_at 33))))%Q /\
   Game.game_over (idle_at 33) = false) /\
  (reachable (session climb_before) /\
   Game.game_over (session climb_before) = false /\
   Game.frame (session climb_before) [KEYDOWN K_SPACE] 300
     = Some (session climb) /\
   Bird.y (Game.bird (session climb)) = -1 # 2 /\
   (Bird.y (Game.bird (session climb)) < 0)%Q /\
   Game.game_over (session climb) = false).
Proof.
  split.
  - split; [apply idle_at_reachable|]. split_all; by_evaluation.
  - split.
    + apply session_reachable. unfold climb_before.
      apply Forall_forall. intros i Hi.
      assert (Hs : snd i = 300).
      { apply in_app_or in Hi as [Hi|Hi].
        - repeat (destruct Hi as [<-|Hi]; [reflexivity|]). destruct Hi.
        - apply repeat_spec in Hi. now subst i. }
      rewrite Hs. exact valid_gap_300.
    + split_all; by_evaluation.
Qed.

(** Left alone, the bird falls out of the screen in the 34th frame.
    After the 33rd its [y] is 580.5: the rectangle, whose coordinates
    are whole numbers, has its top at 580 and its bottom at 600, which
    is not beyond the screen height. *)
Example idle_bird_hits_the_ground :
  Bird.y (Game.bird (idle_at 33)) = 1161 # 2 /\
  Bird.get_rect (Game.bird (idle_at 33)) = Rect.mk 50 580 20 20 /\
  Game.game_over (idle_at 33) = false /\
  Bird.get_rect (Game.bird (idle_at 34)) = Rect.mk 50 597 20 20 /\
  Game.game_over (idle_at 34) = true.
Proof. split_all; by_evaluation. Qed.

(** With the gaps at 281 the bird's rectangle, its top at 205, reaches
    one unit into the upper rectangle of the first pipe as soon as the
    two meet horizontally: the game is over in frame 174.  With the
    gaps at 280 the top of the bird's rectangle only touches the bottom
    edge of the upper rectangle (in frames 174 to 176), which is no
    collision: the session goes on and the pipe is scored. *)
Example pipe_collision_ends_game :
  Game.game_over (session (script 281 173)) = false /\
  map Pipe.x (Game.pipes (session (script 281 173))) = [72] /\
  Game.game_over (session (script 281 174)) = true /\
  map Pipe.x (Game.pipes (session (script 281 174))) = [68] /\
  Bird.get_rect (Game.bird (session (script 281 174)))
    = Rect.mk 50 205 20 20 /\
  map Pipe.get_upper_rect (Game.pipes (session (script 281 174)))
    = [Rect.mk 68 0 80 206].
Proof. split_all; by_evaluation. Qed.

Example edge_touching_is_no_collision :
  Bird.get_rect (Game.bird (session (script 280 175)))
    = Rect.mk 50 205 20 20 /\
  map Pipe.get_upper_rect (Game.pipes (session (script 280 175)))
    = [Rect.mk 64 0 80 205] /\
  Game.game_over (session (script 280 175)) = false /\
  Game.game_over (session (script 280 200)) = false /\
  Game.score (session (script 280 200)) = 1.
Proof. split_all; by_evaluation. Qed.

(** ** Barrier rectangles (C4) *)

(** C4, as the code has it.  For a pipe whose gap centre is in the
    range of the generator, the upper rectangle spans from [y = 0] to
    [gap_y - PIPE_GAP // 2], which is between 75 and 375.  The lower
    rectangle starts at [gap_y + PIPE_GAP // 2], on the screen, and is
    [SCREEN_HEIGHT] high, so its bottom edge is at
    [gap_y + PIPE_GAP // 2 + SCREEN_HEIGHT], past the bottom of the
    screen. *)
Theorem barrier_rect_extents (p : Pipe.t) :
  valid_gap (Pipe.gap_y p) ->
  Rect.top (Pipe.get_upper_rect p) = 0 /\
  Rect.bottom (Pipe.get_upper_rect p) = Pipe.gap_y p - PIPE_GAP / 2 /\
  75 <= Rect.bottom (Pipe.get_upper_rect p) <= 375 /\
  Rect.top (Pipe.get_lower_rect p) = Pipe.gap_y p + PIPE_GAP / 2 /\
  Rect.h (Pipe.get_lower_rect p) = SCREEN_HEIGHT /\
  Rect.bottom (Pipe.get_lower_rect p) =
    Pipe.gap_y p + PIPE_GAP / 2 + SCREEN_HEIGHT /\
  Rect.top (Pipe.get_lower_rect p) < SCREEN_HEIGHT
    < Rect.bottom (Pipe.get_lower_rect p).
Proof.
  intro Hg. unfold valid_gap in Hg.
  unfold Rect.top, Rect.bottom, Pipe.get_upper_rect, Pipe.get_lower_rect.
  cbn [Rect.y Rect.h].
  unfold PIPE_GAP, SCREEN_HEIGHT in *. change (150 / 2) with 75.
  split_all; try reflexivity; lia.
Qed.

Lemma barrier_rect_extents_witness :
  valid_gap (Pipe.gap_y (Pipe.init SCREEN_WIDTH 300)) /\
  Rect.top (Pipe.get_upper_rect (Pipe.init SCREEN_WIDTH 300)) = 0 /\
  Rect.bottom (Pipe.get_upper_rect (Pipe.init SCREEN_WIDTH 300))
    = Pipe.gap_y (Pipe.init SCREEN_WIDTH 300) - PIPE_GAP / 2 /\
  75 <= Rect.bottom (Pipe.get_upper_rect (Pipe.init SCREEN_WIDTH 300))
    <= 375 /\
  Rect.top (Pipe.get_lower_rect (Pipe.init SCREEN_WIDTH 300))
    = Pipe.gap_y (Pipe.init SCREEN_WIDTH 300) + PIPE_GAP / 2 /\
  Rect.h (Pipe.get_lower_rect (Pipe.init SCREEN_WIDTH 300)) = SCREEN_HEIGHT /\
  Rect.bottom (Pipe.get_lower_rect (Pipe.init SCREEN_WIDTH 300)) =
    Pipe.gap_y (Pipe.init SCREEN_WIDTH 300) + PIPE_GAP / 2 + SCREEN_HEIGHT /\
  Rect.top (Pipe.get_lower_rect (Pipe.init SCREEN_WIDTH 300)) < SCREEN_HEIGHT
    < Rect.bottom (Pipe.get_lower_rect (Pipe.init SCREEN_WIDTH 300)).
Proof.
  split; [exact valid_gap_300|].
  apply (barrier_rect_extents (Pipe.init SCREEN_WIDTH 300)).
  exact valid_gap_300.
Defined.

(** The bottom edge of the lower rectangle of a pipe with the gap in
    mid-screen is at 975, not at the screen height. *)
Lemma lower_rect_bottom_counterexample :
  Rect.bottom (Pipe.get_lower_rect (Pipe.init SCREEN_WIDTH 300)) = 975 /\
  Rect.bottom (Pipe.get_lower_rect (Pipe.init SCREEN_WIDTH 300))
    <> SCREEN_HEIGHT.
Proof. split; [reflexivity | discriminate]. Qed.

(** The part of the lower rectangle past the screen bottom never
    matters to the collision test of a bird that is inside the screen:
    the test gives what it gives on the rectangle cut at the screen
    bottom. *)
Lemma lower_rect_clipped (b : Bird.t) (c : Z) (p : Pipe.t) :
  Bird.size b = 20 -> pipe_ok c p ->
  Rect.bottom (Bird.get_rect b) <= SCREEN_HEIGHT ->
  Rect.colliderect (Bird.get_rect b) (Pipe.get_lower_rect p) =
  Rect.colliderect (Bird.get_rect b)
    (Rect.mk (Pipe.x p) (Pipe.gap_y p + PIPE_GAP / 2) PIPE_WIDTH
       (SCREEN_HEIGHT - (Pipe.gap_y p + PIPE_GAP / 2))).
Proof.
  intros Hs (_ & Hg & _ & _) Hb.
  unfold valid_gap, PIPE_GAP, SCREEN_HEIGHT in Hg.
  apply eq_true_iff_eq.
  rewrite !colliderect_overlaps.
  - unfold Rect.overlaps, Rect.left, Rect.right, Rect.top, Rect.bottom in *.
    unfold Bird.get_rect, Pipe.get_lower_rect in *.
    cbn [Rect.x Rect.y Rect.w Rect.h] in *. rewrite Hs in *.
    unfold PIPE_WIDTH, PIPE_GAP, SCREEN_HEIGHT in *.
    change (150 / 2) with 75. lia.
  - unfold Bird.get_rect; cbn [Rect.w]; lia.
  - unfold Bird.get_rect; cbn [Rect.h]; lia.
  - cbn [Rect.w]; unfold PIPE_WIDTH; lia.
  - cbn [Rect.h]; unfold PIPE_GAP, SCREEN_HEIGHT;
      change (150 / 2) with 75; lia.
  - unfold Bird.get_rect; cbn [Rect.w]; lia.
  - unfold Bird.get_rect; cbn [Rect.h]; lia.
  - unfold Pipe.get_lower_rect; cbn [Rect.w]; unfold PIPE_WIDTH; lia.
  - unfold Pipe.get_lower_rect; cbn [Rect.h]; unfold SCREEN_HEIGHT; lia.
Qed.

(** ** Falling *)

Lemma move_velocity (b : Bird.t) :
  (Bird.velocity (Bird.move b) == Bird.velocity b + GRAVITY)%Q.
Proof. unfold Bird.move; cbn [Bird.velocity]. apply Qred_correct. Qed.

Lemma move_y (b : Bird.t) :
  (Bird.y (Bird.move b) == Bird.y b + Bird.velocity (Bird.move b))%Q.
Proof. unfold Bird.move; cbn [Bird.y Bird.velocity]. apply Qred_correct. Qed.

Lemma fall_velocity_positive (b : Bird.t) (n : nat) :
  (0 < Bird.velocity b)%Q ->
  (0 < Bird.velocity (Nat.iter n Bird.move b))%Q.
Proof.
  intro Hv. induction n as [|n IH]; [exact Hv|].
  rewrite Nat.iter_succ, move_velocity.
  unfold GRAVITY. lra.
Qed.

(** In a played frame without a press of the space bar, the bird of
    the next state is [Bird.move] of the bird of this one. *)
Lemma handle_events_no_jump (events : list Event) (g g1 : Game.t) :
  no_restart events -> Game._handle_events g events = Some g1 -> g1 = g.
Proof.
  revert g. induction events as [|e rest IH]; intros g Hn He; simpl in He.
  - now injection He as <-.
  - assert (Hrest : no_restart rest) by (intro H; apply Hn; now right).
    destruct e as [|key|]; simpl in He; [discriminate| |now apply IH].
    assert (Hk : (key =? K_SPACE) = false).
    { apply Z.eqb_neq. intros ->. apply Hn. now left. }
    rewrite Hk in He.
    destruct (Game.game_over g) eqn:Hover; simpl in He;
      rewrite Hover in He; now apply IH.
Qed.

Lemma frame_without_jump_moves_bird
  (g g' : Game.t) (events : list Event) (gap_y : Z) :
  Game.game_over g = false -> no_restart events ->
  Game.frame g events gap_y = Some g' ->
  Game.bird g' = Bird.move (Game.bird g).
Proof.
  intros Hplay Hn Hf. unfold Game.frame in Hf.
  destruct (Game._handle_events g events) as [g1|] eqn:He; [|discriminate].
  apply handle_events_no_jump in He; [|exact Hn]. subst g1.
  injection Hf as <-. rewrite update_playing by exact Hplay.
  rewrite check_collisions_eq, before_check_eq. reflexivity.
Qed.

(** ** The bird's numbers stay half-integers of small magnitude *)

Lemma int_of_float_lower (q : Q) : 0 <= int_of_float q -> (-1 < q)%Q.
Proof.
  destruct q as [a b]. unfold int_of_float, Qlt; cbn [Qnum Qden].
  intro H.
  pose proof (Z.quot_rem' a (Zpos b)) as Hqr.
  destruct (Z.lt_ge_cases a 0) as [Hneg|Hpos]; [|lia].
  pose proof (Z.rem_bound_pos_neg a (Zpos b)) as Hb.
  nia.
Qed.

Lemma int_of_float_upper (q : Q) (n : Z) :
  int_of_float q <= n -> (q < inject_Z (n + 1))%Q.
Proof.
  destruct q as [a b]. unfold int_of_float, Qlt, inject_Z; cbn [Qnum Qden].
  intro H.
  pose proof (Z.quot_rem' a (Zpos b)) as Hqr.
  destruct (Z.lt_ge_cases a 0) as [Hneg|Hpos].
  - pose proof (Z.rem_bound_pos_neg a (Zpos b)) as Hb. nia.
  - pose proof (Z.rem_bound_pos_pos a (Zpos b)) as Hb. nia.
Qed.

Lemma half_integer_plus (p q : Q) :
  half_integer p -> half_integer q -> half_integer (p + q).
Proof.
  intros [m Hm] [n Hn]. exists (m + n).
  rewrite inject_Z_plus, <- Hm, <- Hn. ring.
Qed.

Lemma half_integer_Qred (q : Q) : half_integer q -> half_integer (Qred q).
Proof. intros [m Hm]. exists m. now rewrite Qred_correct. Qed.

Lemma bird_in_range_init : bird_in_range Game.init.
Proof.
  unfold bird_in_range; cbn.
  split; [exists 600; reflexivity|].
  split; [exists 0; reflexivity|].
  split; [discriminate|]. split; [discriminate|].
  split; [split; reflexivity|].
  intros _. split; reflexivity.
Qed.

Lemma bird_in_range_handle_event (g g' : Game.t) (e : Event) :
  bird_in_range g -> Game.handle_event g e = Some g' -> bird_in_range g'.
Proof.
  intros HB He. destruct e as [|key|]; simpl in He;
    [discriminate | | now injection He as <-].
  injection He as <-.
  destruct (Game.game_over g) eqn:Hover; simpl; rewrite ?Hover.
  - destruct (key =? K_SPACE); [apply bird_in_range_init | exact HB].
  - destruct (key =? K_SPACE); simpl; rewrite ?Hover; [|exact HB].
    destruct HB as (Hy & _ & _ & _ & Hwide & Hplay).
    specialize (Hplay Hover).
    unfold bird_in_range.
    cbn [Game.with_bird Game.bird Game.game_over Bird.jump Bird.y
           Bird.velocity].
    split; [exact Hy|].
    split; [exists (-20); reflexivity|].
    split; [discriminate|].
    split; [|split; [exact Hwide | intros _; exact Hplay]].
    unfold JUMP_STRENGTH.
    setoid_replace (inject_Z (-10) * inject_Z (-10))%Q with 100%Q
      by reflexivity.
    lra.
Qed.

Lemma bird_in_range_handle_events (events : list Event) (g g' : Game.t) :
  bird_in_range g -> Game._handle_events g events = Some g' ->
  bird_in_range g'.
Proof.
  revert g. induction events as [|e rest IH]; intros g HB He; simpl in He.
  - now injection He as <-.
  - destruct (Game.handle_event g e) as [g1|] eqn:H1; [|discriminate].
    apply (IH g1); [|exact He].
    eapply bird_in_range_handle_event; eassumption.
Qed.

Lemma bird_in_range_update (gap_y : Z) (g : Game.t) :
  Bird.size (Game.bird g) = 20 ->
  bird_in_range g -> bird_in_range (Game.update gap_y g).
Proof.
  intros Hsize HB. unfold Game.update.
  destruct (Game.game_over g) eqn:Hover; [exact HB|]. cbn [negb].
  rewrite check_collisions_eq, before_check_eq.
  destruct HB as (Hy & Hv & Hvlo & Hen & _ & Hplay).
  specialize (Hplay Hover).
  unfold bird_in_range.
  cbn [Game.with_game_over Game.bird Game.game_over].
  pose proof (move_velocity (Game.bird g)) as Ev.
  pose proof (move_y (Game.bird g)) as Ey.
  set (b' := Bird.move (Game.bird g)) in *.
  set (v := Bird.velocity (Game.bird g)) in *.
  set (y := Bird.y (Game.bird g)) in *.
  unfold GRAVITY in Ev.
  assert (Hv27 : (v < 27)%Q) by nra.
  split; [|split; [|split; [|split; [|split]]]].
  - unfold b', Bird.move; cbn [Bird.y Bird.velocity].
    apply half_integer_Qred, half_integer_plus; [exact Hy|].
    apply half_integer_Qred, half_integer_plus; [exact Hv|].
    exists 1. reflexivity.
  - unfold b', Bird.move; cbn [Bird.velocity].
    apply half_integer_Qred, half_integer_plus; [exact Hv|].
    exists 1. reflexivity.
  - rewrite Ev. lra.
  - rewrite Ey, Ev. nra.
  - rewrite Ey, Ev. lra.
  - intro Hno.
    apply orb_false_iff in Hno as [Hno Hbot].
    apply orb_false_iff in Hno as [_ Htop].
    apply Z.ltb_ge in Htop.
    assert (Hbot' : ~ Rect.bottom (Bird.get_rect b') > SCREEN_HEIGHT)
      by (intro H; apply Z.gtb_gt in H; congruence).
    unfold Rect.top, Rect.bottom, Bird.get_rect in Htop, Hbot'.
    cbn [Rect.y Rect.h] in Htop, Hbot'.
    replace (Bird.size b') with 20 in Hbot' by (symmetry; exact Hsize).
    unfold SCREEN_HEIGHT in Hbot'.
    split; [now apply int_of_float_lower|].
    apply (int_of_float_upper _ 580). lia.
Qed.

(** In every reachable state the bird's [y] and velocity are multiples
    of one half, with [-11 < y < 610] and [-10 <= velocity < 27]:
    numbers that binary floating point holds and adds exactly. *)
Lemma reachable_bird_in_range (g : Game.t) :
  reachable g ->
  bird_in_range g /\ (Bird.velocity (Game.bird g) < 27)%Q.
Proof.
  intro Hr.
  assert (HB : bird_in_range g).
  { induction Hr as [|g g' events gap_y Hr IH Hgap Hf].
    - exact bird_in_range_init.
    - unfold Game.frame in Hf.
      destruct (Game._handle_events g events) as [g1|] eqn:He;
        [|discriminate].
      injection Hf as <-.
      apply bird_in_range_update.
      + pose proof (Inv_handle_events events g g1 (reachable_Inv g Hr) He)
          as (_ & Hs & _).
        exact Hs.
      + eapply bird_in_range_handle_events; eassumption. }
  split; [exact HB|].
  destruct HB as (_ & _ & _ & Hen & Hwide & _). nra.
Qed.

(** ** The frozen state (C8) *)

Lemma handle_events_over (events : list Event) (g : Game.t) :
  Game.game_over g = true -> no_restart events ->
  (forall g1, Game._handle_events g events = Some g1 -> g1 = g) /\
  (~ In QUIT events -> Game._handle_events g events = Some g).
Proof.
  intros Hover Hn.
  split; [intros g1; now apply handle_events_no_jump|].
  induction events as [|e rest IH]; intro Hq; [reflexivity|].
  assert (Hrest : no_restart rest) by (intro H; apply Hn; now right).
  destruct e as [|key|]; simpl.
  - exfalso. apply Hq. now left.
  - assert (Hk : (key =? K_SPACE) = false).
    { apply Z.eqb_neq. intros ->. apply Hn. now left. }
    rewrite Hk, Hover. simpl. rewrite Hover.
    apply IH; [exact Hrest | intro H; apply Hq; now right].
  - apply IH; [exact Hrest | intro H; apply Hq; now right].
Qed.

Lemma frame_over (g g' : Game.t) (events : list Event) (gap_y : Z) :
  Game.game_over g = true -> no_restart events ->
  Game.frame g events gap_y = Some g' -> g' = g.
Proof.
  intros Hover Hn Hf. unfold Game.frame in Hf.
  destruct (Game._handle_events g events) as [g1|] eqn:He; [|discriminate].
  apply (handle_events_over events g Hover Hn) in He. subst g1.
  injection Hf as <-. now apply update_over.
Qed.

Lemma Event_eq_dec (a b : Event) : {a = b} + {a <> b}.
Proof. decide equality. apply Z.eq_dec. Defined.

(** C8.  Once the game is over, frames whose events hold no press of
    the space bar leave the whole state as it is: the bird (position
    and velocity), every pipe (position and mark), the score, the
    spawn counter and the game-over flag.  Unless the process is quit,
    the loop goes on in that same state.  A frame that does change the
    state of a game that is over had a press of the space bar among
    its events, and that press resets the game. *)
Theorem over_state_is_frozen (g : Game.t) (inputs : list (list Event * Z)) :
  Game.game_over g = true ->
  Forall (fun i => no_restart (fst i)) inputs ->
  (forall g', Game.run g inputs = Some g' -> g' = g) /\
  (Forall (fun i => ~ In QUIT (fst i)) inputs ->
   Game.run g inputs = Some g) /\
  (forall events gap_y g',
     Game.frame g events gap_y = Some g' -> g' <> g ->
     In (KEYDOWN K_SPACE) events) /\
  Game.handle_event g (KEYDOWN K_SPACE) = Some (Game.reset_game g).
Proof.
  intros Hover Hn.
  split; [|split; [|split]].
  - induction inputs as [|[events gap_y] rest IH]; intros g' Hrun;
      simpl in Hrun.
    + now injection Hrun as <-.
    + inversion Hn as [|? ? Hhd Hrest]; subst.
      destruct (Game.frame g events gap_y) as [g1|] eqn:Hf; [|discriminate].
      apply frame_over in Hf; [|exact Hover|exact Hhd]. subst g1.
      now apply IH.
  - induction inputs as [|[events gap_y] rest IH]; intro Hq; [reflexivity|].
    inversion Hn as [|? ? Hhd Hrest]; subst.
    inversion Hq as [|? ? Hqhd Hqrest]; subst.
    simpl. unfold Game.frame.
    destruct (handle_events_over events g Hover Hhd) as [_ He].
    rewrite (He Hqhd), update_over by exact Hover.
    now apply IH.
  - intros events gap_y g' Hf Hne.
    destruct (in_dec Event_eq_dec (KEYDOWN K_SPACE) events) as [Hin|Hout];
      [exact Hin|].
    exfalso. apply Hne. eapply frame_over; eassumption.
  - simpl. rewrite Hover. simpl. now rewrite Hover.
Qed.

Lemma over_state_is_frozen_witness :
  Game.game_over (idle_at 34) = true /\
  Forall (fun i => no_restart (fst i))
    [([OTHER], 300); ([KEYDOWN 13; OTHER], 200); ([], 450)] /\
  (forall g',
     Game.run (idle_at 34)
       [([OTHER], 300); ([KEYDOWN 13; OTHER], 200); ([], 450)] = Some g' ->
     g' = idle_at 34) /\
  (Forall (fun i => ~ In QUIT (fst i))
     [([OTHER], 300); ([KEYDOWN 13; OTHER], 200); ([], 450)] ->
   Game.run (idle_at 34)
     [([OTHER], 300); ([KEYDOWN 13; OTHER], 200); ([], 450)]
   = Some (idle_at 34)) /\
  (forall events gap_y g',
     Game.frame (idle_at 34) events gap_y = Some g' -> g' <> idle_at 34 ->
     In (KEYDOWN K_SPACE) events) /\
  Game.handle_event (idle_at 34) (KEYDOWN K_SPACE)
  = Some (Game.reset_game (idle_at 34)).
Proof.
  assert (Hn : Forall (fun i => no_restart (fst i))
            [([OTHER], 300); ([KEYDOWN 13; OTHER], 200); ([], 450)]).
  { repeat constructor; unfold no_restart; simpl;
      intros H; repeat (destruct H as [H|H]; try discriminate H); exact H. }
  split; [vm_compute; reflexivity|].
  split; [exact Hn|].
  apply (over_state_is_frozen (idle_at 34)
           [([OTHER], 300); ([KEYDOWN 13; OTHER], 200); ([], 450)]).
  - vm_compute; reflexivity.
  - exact Hn.
Defined.

(** ** Scoring (C2) *)

Lemma flips_of_mark (bx : Z) (l : list Pipe.t) :
  filter (fun pp => became_passed (fst pp) (snd pp))
    (combine l (map (mark bx) l)) =
  combine (filter (crossing bx) l) (map (mark bx) (filter (crossing bx) l)).
Proof.
  induction l as [|p rest IH]; [reflexivity|].
  cbn [map combine filter fst snd].
  rewrite became_passed_mark.
  destruct (crossing bx p); cbn [map combine]; now rewrite IH.
Qed.

Lemma count_flips_of_mark (bx : Z) (l : list Pipe.t) :
  length (filter (fun pp => became_passed (fst pp) (snd pp))
            (combine l (map (mark bx) l))) =
  length (filter (crossing bx) l).
Proof.
  rewrite flips_of_mark, length_combine, length_map. apply Nat.min_id.
Qed.

Lemma survivors_eq (bx : Z) (ps : list Pipe.t) :
  map (mark bx) (Game.prune (map Pipe.move ps)) = survivors bx ps.
Proof.
  unfold survivors, Game.prune, pipe_frame.
  induction ps as [|p rest IH]; [reflexivity|].
  cbn [map filter flat_map].
  destruct (Pipe.off_screen (Pipe.move p)); cbn [negb map app];
    now rewrite IH.
Qed.

(** The life of a pipe, frame by frame after the one that spawns it:
    4 units left a frame; marked from the 108th frame on, when it is at
    -32 and its right edge at 48; dropped in the 121st, when it would
    be at -84. *)
Lemma pipe_life_closed_form (gap_y : Z) (n : nat) :
  pipe_life 50 n (Pipe.init SCREEN_WIDTH gap_y) =
  if (n <=? 120)%nat
  then Some (Pipe.mk (SCREEN_WIDTH - 4 * Z.of_nat n) gap_y (-4)
               (108 <=? n)%nat)
  else None.
Proof.
  induction n as [|n IH]; [reflexivity|].
  cbn [pipe_life]. rewrite IH.
  destruct (Nat.leb_spec n 120) as [Hn|Hn];
    destruct (Nat.leb_spec (S n) 120) as [Hs|Hs]; try lia; try reflexivity.
  - unfold pipe_frame, Pipe.off_screen, Pipe.move, mark, crossing.
    cbn [Pipe.x Pipe.velocity Pipe.passed Pipe.gap_y].
    unfold SCREEN_WIDTH, PIPE_WIDTH.
    destruct (Z.ltb_spec (400 - 4 * Z.of_nat n + -4) (- (80))); [lia|].
    destruct (Nat.leb_spec 108 n) as [H1|H1];
      destruct (Nat.leb_spec 108 (S n)) as [H2|H2]; try lia;
      destruct (Z.ltb_spec (400 - 4 * Z.of_nat n + -4 + 80) 50);
      try lia; unfold Pipe.set_passed;
      cbn [negb andb Pipe.x Pipe.velocity Pipe.passed Pipe.gap_y];
      f_equal; f_equal; lia.
  - unfold pipe_frame, Pipe.off_screen, Pipe.move.
    cbn [Pipe.x Pipe.velocity]. unfold SCREEN_WIDTH, PIPE_WIDTH.
    destruct (Z.ltb_spec (400 - 4 * Z.of_nat n + -4) (- (80)));
      [reflexivity | lia].
Qed.

(** C2.  In any played frame, of any state (also one in which several
    pipes get behind the bird at once), let [visited] be the list the
    scoring loop goes through (the pipes moved, the new pipe if one is
    spawned, the off-screen ones dropped).  Each visited pipe is the
    new pipe or a pipe of the frame's start moved, with the mark it
    had.  The loop keeps the list's length and each pipe's position,
    gap and speed; a mark that is set stays set; a mark goes from unset
    to set exactly on the pipes that are unmarked and have their right
    edge strictly left of the bird's [x]; and the score grows by
    exactly the number of pipes whose mark went from unset to set,
    however many they are.  In the states the game can be in, a mark
    goes up exactly when the right edge is strictly left of the bird's
    [x] now and was not one move earlier; each pipe of the list goes
    its own way ([pipe_frame]); and the way of a pipe from its spawn on
    is fixed: unmarked for 107 played frames, marked from the 108th on,
    removed in the 121st; so its mark goes up once, and never down. *)
Theorem score_counts_newly_passed
  (g g1 : Game.t) (events : list Event) (gap_y : Z) :
  Game._handle_events g events = Some g1 ->
  Game.game_over g1 = false ->
  exists g',
    Game.frame g events gap_y = Some g' /\
    Forall
      (fun p =>
         p = Pipe.init SCREEN_WIDTH gap_y \/
         exists q, In q (Game.pipes g1) /\ p = Pipe.move q /\
                   Pipe.passed p = Pipe.passed q)
      (visited gap_y g1) /\
    length (Game.pipes g') = length (visited gap_y g1) /\
    (forall i p p',
       nth_error (visited gap_y g1) i = Some p ->
       nth_error (Game.pipes g') i = Some p' ->
       Pipe.x p' = Pipe.x p /\ Pipe.gap_y p' = Pipe.gap_y p /\
       Pipe.velocity p' = Pipe.velocity p /\
       (Pipe.passed p = true -> Pipe.passed p' = true) /\
       (became_passed p p' = true <->
          Pipe.x p + PIPE_WIDTH < Bird.x (Game.bird g') /\
          Pipe.passed p = false)) /\
    Game.score g' =
      Game.score g1 +
      Z.of_nat
        (length
           (filter (fun pp => became_passed (fst pp) (snd pp))
              (combine (visited gap_y g1) (Game.pipes g')))) /\
    (reachable g ->
     (forall i p p',
        nth_error (visited gap_y g1) i = Some p ->
        nth_error (Game.pipes g') i = Some p' ->
        (became_passed p p' = true <->
           Pipe.x p' + PIPE_WIDTH < Bird.x (Game.bird g') /\
           ~ Pipe.x p' - Pipe.velocity p' + PIPE_WIDTH
             < Bird.x (Game.bird g'))) /\
     Game.pipes g' =
       survivors (Bird.x (Game.bird g1)) (Game.pipes g1) ++
       (if Game.pipe_spawn_counter g1 + 1 >? 90
        then [Pipe.init SCREEN_WIDTH gap_y] else []) /\
     (forall gap n,
        pipe_life (Bird.x (Game.bird g1)) n (Pipe.init SCREEN_WIDTH gap) =
        if (n <=? 120)%nat
        then Some (Pipe.mk (SCREEN_WIDTH - 4 * Z.of_nat n) gap (-4)
                     (108 <=? n)%nat)
        else None)).
Proof.
  intros He Hplay.
  exists (Game._check_collisions (Game.before_check gap_y g1)).
  split; [now apply frame_playing|].
  rewrite check_collisions_eq, before_check_eq.
  cbn [Game.with_game_over Game.bird Game.pipes Game.score Bird.move Bird.x].
  split; [|split; [|split; [|split]]].
  - apply Forall_forall. intros p Hp.
    apply In_visited in Hp as [[q (Hq & -> & _)] | [_ ->]].
    + right. exists q. now repeat split.
    + now left.
  - apply length_map.
  - intros i p p' Hp Hp'.
    rewrite nth_error_map, Hp in Hp'. injection Hp' as <-.
    rewrite mark_x, mark_gap_y, mark_velocity.
    split; [reflexivity|]. split; [reflexivity|]. split; [reflexivity|].
    split; [intro H; apply mark_passed; now left|].
    rewrite became_passed_mark. unfold crossing.
    now rewrite andb_true_iff, Z.ltb_lt, negb_true_iff.
  - now rewrite count_flips_of_mark.
  - intro Hr.
    assert (HI : Inv g1)
      by (eapply Inv_handle_events; [apply reachable_Inv|]; eassumption).
    destruct HI as (Hbx & _ & _ & Hok & _).
    rewrite Forall_forall in Hok. rewrite Hbx.
    split; [|split].
    + intros i p p' Hp Hp'.
      rewrite nth_error_map, Hp in Hp'. injection Hp' as <-.
      rewrite mark_x, mark_velocity.
      rewrite became_passed_mark. unfold crossing.
      rewrite andb_true_iff, Z.ltb_lt, negb_true_iff.
      apply nth_error_In, In_visited in Hp as [[q (Hq & -> & _)] | [_ ->]].
      * destruct (Hok q Hq) as (Hv & _ & _ & Hpq & _).
        unfold Pipe.move; cbn [Pipe.x Pipe.velocity Pipe.passed].
        rewrite Hv. unfold PIPE_WIDTH in *.
        destruct (Pipe.passed q).
        -- assert (Pipe.x q + 80 < 50) by now apply Hpq.
           split; [intros [_ H']; discriminate | intros [_ H']; lia].
        -- assert (~ Pipe.x q + 80 < 50)
             by (intro H'; apply Hpq in H'; discriminate).
           split; [intros [H1 _] | intros [H1 _]]; (split; [lia|]);
             [lia | reflexivity].
      * unfold Pipe.init; cbn [Pipe.x Pipe.velocity Pipe.passed].
        unfold SCREEN_WIDTH, PIPE_WIDTH. split; intros [H _]; lia.
    + rewrite visited_eq, <- survivors_eq.
      destruct (Game.pipe_spawn_counter g1 + 1 >? 90);
        [|now rewrite app_nil_r].
      rewrite prune_snoc_fresh, map_app. cbn [map].
      rewrite mark_fresh; [reflexivity|].
      unfold SCREEN_WIDTH, PIPE_WIDTH. lia.
    + exact pipe_life_closed_form.
Qed.

Lemma score_counts_newly_passed_witness :
  (Game._handle_events crowded [] = Some crowded /\
   Game.game_over crowded = false /\
   exists g',
     Game.frame crowded [] 250 = Some g' /\
     Forall
       (fun p =>
          p = Pipe.init SCREEN_WIDTH 250 \/
          exists q, In q (Game.pipes crowded) /\ p = Pipe.move q /\
                    Pipe.passed p = Pipe.passed q)
       (visited 250 crowded) /\
     length (Game.pipes g') = length (visited 250 crowded) /\
     (forall i p p',
        nth_error (visited 250 crowded) i = Some p ->
        nth_error (Game.pipes g') i = Some p' ->
        Pipe.x p' = Pipe.x p /\ Pipe.gap_y p' = Pipe.gap_y p /\
        Pipe.velocity p' = Pipe.velocity p /\
        (Pipe.passed p = true -> Pipe.passed p' = true) /\
        (became_passed p p' = true <->
           Pipe.x p + PIPE_WIDTH < Bird.x (Game.bird g') /\
           Pipe.passed p = false)) /\
     Game.score g' =
       Game.score crowded +
       Z.of_nat
         (length
            (filter (fun pp => became_passed (fst pp) (snd pp))
               (combine (visited 250 crowded) (Game.pipes g')))) /\
     (reachable crowded ->
      (forall i p p',
         nth_error (visited 250 crowded) i = Some p ->
         nth_error (Game.pipes g') i = Some p' ->
         (became_passed p p' = true <->
            Pipe.x p' + PIPE_WIDTH < Bird.x (Game.bird g') /\
            ~ Pipe.x p' - Pipe.velocity p' + PIPE_WIDTH
              < Bird.x (Game.bird g'))) /\
      Game.pipes g' =
        survivors (Bird.x (Game.bird crowded)) (Game.pipes crowded) ++
        (if Game.pipe_spawn_counter crowded + 1 >? 90
         then [Pipe.init SCREEN_WIDTH 250] else []) /\
      (forall gap n,
         pipe_life (Bird.x (Game.bird crowded)) n (Pipe.init SCREEN_WIDTH gap) =
         if (n <=? 120)%nat
         then Some (Pipe.mk (SCREEN_WIDTH - 4 * Z.of_nat n) gap (-4)
                      (108 <=? n)%nat)
         else None))) /\
  (reachable (state_at 198) /\
   Game._handle_events (state_at 198) [] = Some (state_at 198) /\
   Game.game_over (state_at 198) = false /\
   exists g',
     Game.frame (state_at 198) [] 250 = Some g' /\
     Game.score g' =
       Game.score (state_at 198) +
       Z.of_nat
         (length
            (filter (fun pp => became_passed (fst pp) (snd pp))
               (combine (visited 250 (state_at 198)) (Game.pipes g')))) /\
     Game.pipes g' =
       survivors (Bird.x (Game.bird (state_at 198)))
         (Game.pipes (state_at 198)) ++
       (if Game.pipe_spawn_counter (state_at 198) + 1 >? 90
        then [Pipe.init SCREEN_WIDTH 250] else [])).
Proof.
  split.
  - split; [reflexivity|].
    split; [reflexivity|].
    apply (score_counts_newly_passed crowded crowded [] 250); reflexivity.
  - assert (Hplay : Game.game_over (state_at 198) = false) by by_evaluation.
    split; [apply state_at_reachable|].
    split; [reflexivity|]. split; [exact Hplay|].
    destruct (score_counts_newly_passed (state_at 198) (state_at 198) [] 250
                eq_refl Hplay)
      as (g' & Hf & _ & _ & _ & Hscore & Hreach).
    destruct (Hreach (state_at_reachable 198)) as (_ & Hpipes & _).
    exists g'. split; [exact Hf|]. split; [exact Hscore | exact Hpipes].
Defined.

(** Two pipes get behind the bird in the frame played from [crowded]:
    both are marked and the score goes from 5 to 7. *)
Example two_pipes_scored_in_one_frame :
  exists g',
    Game.frame crowded [] 250 = Some g' /\
    Game.pipes g' =
      [Pipe.mk (-32) 200 (-4) true; Pipe.mk (-31) 300 (-4) true;
       Pipe.mk 96 250 (-4) false] /\
    Game.score crowded = 5 /\ Game.score g' = 7.
Proof.
  eexists. split; [reflexivity|]. split_all; by_evaluation.
Qed.

(** The frame of the sample session in which the first pipe gets
    behind the bird: its mark goes up and the score from 0 to 1. *)
Example first_pipe_scores :
  map Pipe.x (Game.pipes (state_at 198)) = [-28; 336] /\
  map Pipe.passed (Game.pipes (state_at 198)) = [false; false] /\
  Game.score (state_at 198) = 0 /\
  map Pipe.x (Game.pipes (state_at 199)) = [-32; 332] /\
  map Pipe.passed (Game.pipes (state_at 199)) = [true; false] /\
  Game.score (state_at 199) = 1 /\
  Game.score (state_at 200) = 1.
Proof. split_all; by_evaluation. Qed.

(** The loop counts every pipe that crosses, also when several do in
    one pass, and none twice. *)
Example score_loop_two_crossings :
  Game.score_loop 50
    [Pipe.mk (-40) 200 (-4) true; Pipe.mk (-32) 300 (-4) false;
     Pipe.mk (-31) 250 (-4) false; Pipe.mk 100 250 (-4) false] 7 =
  ([Pipe.mk (-40) 200 (-4) true; Pipe.mk (-32) 300 (-4) true;
    Pipe.mk (-31) 250 (-4) true; Pipe.mk 100 250 (-4) false], 9).
Proof. reflexivity. Qed.

(** ** Order of movement and spawn (C3) *)

(** C3, as the code has it.  A played frame first moves every pipe of
    the list by its speed; only then does [_manage_pipes] add one to
    the spawn counter and, if it is above 90, append a new pipe at
    [SCREEN_WIDTH] and reset the counter to 0.  So the pipes the
    collision check sees are the moved ones that are still on screen
    (marked where they got behind the bird), followed, in a spawn
    frame, by the new pipe as constructed: it has not been moved, its
    [x] is [SCREEN_WIDTH]. *)
Theorem pipes_move_then_spawn
  (g g1 : Game.t) (events : list Event) (gap_y : Z) :
  reachable g ->
  Game._handle_events g events = Some g1 ->
  Game.game_over g1 = false ->
  exists g',
    Game.frame g events gap_y = Some g' /\
    Game.pipes g' = Game.pipes (Game.before_check gap_y g1) /\
    (Game.pipe_spawn_counter g1 + 1 > 90 ->
     Game.pipe_spawn_counter g' = 0 /\
     Game.pipes g' =
       map (mark (Bird.x (Game.bird g1)))
         (Game.prune (map Pipe.move (Game.pipes g1)))
       ++ [Pipe.init SCREEN_WIDTH gap_y] /\
     Pipe.x (Pipe.init SCREEN_WIDTH gap_y) = SCREEN_WIDTH) /\
    (Game.pipe_spawn_counter g1 + 1 <= 90 ->
     Game.pipe_spawn_counter g' = Game.pipe_spawn_counter g1 + 1 /\
     Game.pipes g' =
       map (mark (Bird.x (Game.bird g1)))
         (Game.prune (map Pipe.move (Game.pipes g1)))).
Proof.
  intros Hr He Hplay.
  assert (HI : Inv g1)
    by (eapply Inv_handle_events; [apply reachable_Inv|]; eassumption).
  destruct HI as (Hbx & _).
  exists (Game._check_collisions (Game.before_check gap_y g1)).
  split; [now apply frame_playing|].
  rewrite check_collisions_eq, before_check_eq, visited_eq.
  cbn [Game.with_game_over Game.pipes Game.pipe_spawn_counter].
  split; [reflexivity|].
  split; intro Hc.
  - destruct (Z.gtb_spec (Game.pipe_spawn_counter g1 + 1) 90); [|lia].
    split; [reflexivity|]. split; [|reflexivity].
    rewrite prune_snoc_fresh, map_app. cbn [map].
    rewrite mark_fresh; [reflexivity|].
    rewrite Hbx. unfold SCREEN_WIDTH, PIPE_WIDTH. lia.
  - destruct (Z.gtb_spec (Game.pipe_spawn_counter g1 + 1) 90); [lia|].
    split; reflexivity.
Qed.

Lemma pipes_move_then_spawn_witness :
  reachable (state_at 181) /\
  Game._handle_events (state_at 181) [] = Some (state_at 181) /\
  Game.game_over (state_at 181) = false /\
  exists g',
    Game.frame (state_at 181) [] 250 = Some g' /\
    Game.pipes g' = Game.pipes (Game.before_check 250 (state_at 181)) /\
    (Game.pipe_spawn_counter (state_at 181) + 1 > 90 ->
     Game.pipe_spawn_counter g' = 0 /\
     Game.pipes g' =
       map (mark (Bird.x (Game.bird (state_at 181))))
         (Game.prune (map Pipe.move (Game.pipes (state_at 181))))
       ++ [Pipe.init SCREEN_WIDTH 250] /\
     Pipe.x (Pipe.init SCREEN_WIDTH 250) = SCREEN_WIDTH) /\
    (Game.pipe_spawn_counter (state_at 181) + 1 <= 90 ->
     Game.pipe_spawn_counter g' = Game.pipe_spawn_counter (state_at 181) + 1 /\
     Game.pipes g' =
       map (mark (Bird.x (Game.bird (state_at 181))))
         (Game.prune (map Pipe.move (Game.pipes (state_at 181))))).
Proof.
  split; [apply state_at_reachable|].
  split; [reflexivity|].
  split; [vm_compute; reflexivity|].
  apply (pipes_move_then_spawn (state_at 181) (state_at 181) [] 250).
  - apply state_at_reachable.
  - reflexivity.
  - vm_compute; reflexivity.
Defined.

(** The 91st frame of the sample session spawns the first pipe.  When
    the collision check of that frame runs, the pipe is at
    [SCREEN_WIDTH]: it has not been advanced, as it would have been
    (to 396) had the spawn come before the movement. *)
Lemma spawned_pipe_not_advanced_counterexample :
  reachable (state_at 90) /\
  Game.game_over (state_at 90) = false /\
  Game.pipe_spawn_counter (state_at 90) = 90 /\
  Game.pipes (state_at 90) = [] /\
  Game.frame (state_at 90) [] 250
    = Some (Game._check_collisions (Game.before_check 250 (state_at 90))) /\
  Game.pipes (Game.before_check 250 (state_at 90))
    = [Pipe.init SCREEN_WIDTH 250] /\
  ~ (forall p,
       In p (Game.pipes (Game.before_check 250 (state_at 90))) ->
       Pipe.x p < SCREEN_WIDTH).
Proof.
  split; [apply state_at_reachable|].
  assert (Hp : Game.pipes (Game.before_check 250 (state_at 90))
               = [Pipe.init SCREEN_WIDTH 250]) by (vm_compute; reflexivity).
  split_all; try by_evaluation.
  rewrite Hp. intro H.
  specialize (H (Pipe.init SCREEN_WIDTH 250) (or_introl eq_refl)).
  unfold Pipe.init, SCREEN_WIDTH in H; cbn [Pipe.x] in H. lia.
Qed.

(** ** Removal (C5) *)

Lemma off_screen_iff (p : Pipe.t) :
  Pipe.off_screen p = true <-> Pipe.x p + PIPE_WIDTH < 0.
Proof. unfold Pipe.off_screen. rewrite Z.ltb_lt. lia. Qed.

(** C5, as the code has it.  [off_screen] holds exactly when
    [x + PIPE_WIDTH < 0], that is, when the pipe's right (trailing)
    edge has left the screen.  The removal pass of a played frame keeps
    every pipe of the frame's start whose right edge, after the frame's
    move, is still at or right of 0, and keeps no pipe whose right edge
    is left of 0: a pipe is removed in the very frame its right edge
    leaves the screen, hence never before its left (leading) edge has,
    and stays in the list as long as only its left edge has.  Every
    pipe of the list after the frame is a moved pipe of the frame's
    start or the new one. *)
Theorem pipes_removed_by_trailing_edge
  (g g1 : Game.t) (events : list Event) (gap_y : Z) :
  Game._handle_events g events = Some g1 ->
  Game.game_over g1 = false ->
  (forall p, Pipe.off_screen p = true <-> Pipe.x p + PIPE_WIDTH < 0) /\
  exists g',
    Game.frame g events gap_y = Some g' /\
    (forall q, In q (Game.pipes g1) ->
       0 <= Pipe.x (Pipe.move q) + PIPE_WIDTH ->
       exists p', In p' (Game.pipes g') /\
         Pipe.x p' = Pipe.x (Pipe.move q) /\
         Pipe.gap_y p' = Pipe.gap_y q /\
         Pipe.velocity p' = Pipe.velocity q) /\
    (forall p', In p' (Game.pipes g') ->
       0 <= Pipe.x p' + PIPE_WIDTH /\
       ((exists q, In q (Game.pipes g1) /\
           Pipe.x p' = Pipe.x (Pipe.move q) /\
           Pipe.gap_y p' = Pipe.gap_y q /\
           Pipe.velocity p' = Pipe.velocity q) \/
        (Pipe.x p' = SCREEN_WIDTH /\ Pipe.gap_y p' = gap_y))) /\
    (forall q, In q (Game.pipes g1) ->
       Pipe.x (Pipe.move q) + PIPE_WIDTH < 0 ->
       Pipe.x (Pipe.move q) < 0 /\
       ~ In (Pipe.move q) (visited gap_y g1)).
Proof.
  intros He Hplay.
  split; [exact off_screen_iff|].
  exists (Game._check_collisions (Game.before_check gap_y g1)).
  split; [now apply frame_playing|].
  rewrite check_collisions_eq, before_check_eq.
  cbn [Game.with_game_over Game.pipes].
  split; [|split].
  - intros q Hq Hx.
    exists (mark (Bird.x (Game.bird g1)) (Pipe.move q)).
    rewrite mark_x, mark_gap_y, mark_velocity.
    split; [|repeat split].
    apply in_map. rewrite visited_eq. unfold Game.prune.
    apply filter_In. split.
    + destruct (Game.pipe_spawn_counter g1 + 1 >? 90);
        [apply in_or_app; left|]; now apply in_map.
    + apply negb_true_iff.
      destruct (Pipe.off_screen (Pipe.move q)) eqn:Hoff; [|reflexivity].
      apply off_screen_iff in Hoff. lia.
  - intros p' Hp'. apply in_map_iff in Hp' as [p [<- Hp]].
    rewrite mark_x, mark_gap_y, mark_velocity.
    split.
    + assert (Hk : Pipe.off_screen p = false).
      { unfold visited, Game.prune in Hp.
        apply filter_In in Hp as [_ Hk]. now apply negb_true_iff. }
      destruct (Z.ltb_spec (Pipe.x p + PIPE_WIDTH) 0) as [Hlt|Hge];
        [|exact Hge].
      apply off_screen_iff in Hlt. congruence.
    + apply In_visited in Hp as [[q (Hq & -> & _)] | [_ ->]].
      * left. exists q. now repeat split.
      * right. split; reflexivity.
  - intros q Hq Hx. split; [unfold PIPE_WIDTH in Hx; lia|].
    intro Hin. unfold visited, Game.prune in Hin.
    apply filter_In in Hin as [_ Hk]. apply negb_true_iff in Hk.
    apply off_screen_iff in Hx. congruence.
Qed.

Lemma pipes_removed_by_trailing_edge_witness :
  Game._handle_events (state_at 211) [] = Some (state_at 211) /\
  Game.game_over (state_at 211) = false /\
  (forall p, Pipe.off_screen p = true <-> Pipe.x p + PIPE_WIDTH < 0) /\
  exists g',
    Game.frame (state_at 211) [] 250 = Some g' /\
    (forall q, In q (Game.pipes (state_at 211)) ->
       0 <= Pipe.x (Pipe.move q) + PIPE_WIDTH ->
       exists p', In p' (Game.pipes g') /\
         Pipe.x p' = Pipe.x (Pipe.move q) /\
         Pipe.gap_y p' = Pipe.gap_y q /\
         Pipe.velocity p' = Pipe.velocity q) /\
    (forall p', In p' (Game.pipes g') ->
       0 <= Pipe.x p' + PIPE_WIDTH /\
       ((exists q, In q (Game.pipes (state_at 211)) /\
           Pipe.x p' = Pipe.x (Pipe.move q) /\
           Pipe.gap_y p' = Pipe.gap_y q /\
           Pipe.velocity p' = Pipe.velocity q) \/
        (Pipe.x p' = SCREEN_WIDTH /\ Pipe.gap_y p' = 250))) /\
    (forall q, In q (Game.pipes (state_at 211)) ->
       Pipe.x (Pipe.move q) + PIPE_WIDTH < 0 ->
       Pipe.x (Pipe.move q) < 0 /\
       ~ In (Pipe.move q) (visited 250 (state_at 211))).
Proof.
  split; [reflexivity|].
  split; [vm_compute; reflexivity|].
  apply (pipes_removed_by_trailing_edge (state_at 211) (state_at 211) [] 250).
  - reflexivity.
  - vm_compute; reflexivity.
Defined.

(** In the sample session the first pipe's left edge leaves the screen
    in frame 192 (its [x] goes from 0 to -4).  The pipe is still in the
    list two frames later, and nineteen frames later; frame 212 removes
    it. *)
Lemma pipe_kept_after_leading_edge_counterexample :
  reachable (state_at 192) /\
  Game.game_over (state_at 192) = false /\
  map Pipe.x (Game.pipes (state_at 191)) = [0; 364] /\
  map Pipe.x (Game.pipes (state_at 192)) = [-4; 360] /\
  Game.frame (state_at 192) [] 250 = Some (state_at 193) /\
  Game.frame (state_at 193) [] 250 = Some (state_at 194) /\
  map Pipe.x (Game.pipes (state_at 194)) = [-12; 352] /\
  map Pipe.x (Game.pipes (state_at 211)) = [-80; 284] /\
  map Pipe.x (Game.pipes (state_at 212)) = [280] /\
  (exists p p',
     In p (Game.pipes (state_at 192)) /\ Pipe.x p < 0 /\
     In p' (Game.pipes (state_at 194)) /\
     Pipe.x p' = Pipe.x p + 2 * Pipe.velocity p /\
     Pipe.gap_y p' = Pipe.gap_y p).
Proof.
  split; [apply state_at_reachable|].
  split_all; try by_evaluation.
  exists (Pipe.mk (-4) 250 (-4) false), (Pipe.mk (-12) 250 (-4) false).
  split_all; try by_evaluation.
  - vm_compute. now left.
  - vm_compute. now left.
Qed.

(** ** Order of the list (C6) *)

(** C6, as the code has it.  New pipes are appended at the end of the
    list and enter at the right, so in every reachable state the list
    is in ascending order of [x]: of two pipes of the list, the one
    that comes earlier (spawned earlier) has the strictly smaller
    [x]. *)
Theorem pipes_sorted_ascending
  (g : Game.t) (i j : nat) (p q : Pipe.t) :
  reachable g -> (i < j)%nat ->
  nth_error (Game.pipes g) i = Some p ->
  nth_error (Game.pipes g) j = Some q ->
  Pipe.x p < Pipe.x q.
Proof.
  intros Hr Hij Hp Hq.
  destruct (reachable_Inv g Hr) as (_ & _ & _ & _ & Hs).
  pose proof (StronglySorted_nth spaced _ i j p q Hs Hij Hp Hq) as H.
  unfold spaced, SPAWN_SPACING in H. lia.
Qed.

Lemma pipes_sorted_ascending_witness :
  reachable (state_at 182) /\ (0 < 1)%nat /\
  nth_error (Game.pipes (state_at 182)) 0 = Some (Pipe.mk 36 250 (-4) false) /\
  nth_error (Game.pipes (state_at 182)) 1 = Some (Pipe.mk 400 250 (-4) false) /\
  Pipe.x (Pipe.mk 36 250 (-4) false) < Pipe.x (Pipe.mk 400 250 (-4) false).
Proof.
  split; [apply state_at_reachable|].
  split; [lia|].
  split; [by_evaluation|].
  split; [by_evaluation|].
  apply (pipes_sorted_ascending (state_at 182) 0 1).
  - apply state_at_reachable.
  - lia.
  - by_evaluation.
  - by_evaluation.
Defined.

(** After 182 frames of the sample session the list holds the first
    pipe at 36 and, behind it in the list, the second at 400: the
    earlier pipe does not have the greater [x]. *)
Lemma pipes_not_descending_counterexample :
  reachable (state_at 182) /\
  map Pipe.x (Game.pipes (state_at 182)) = [36; 400] /\
  ~ (forall i j p q,
       (i < j)%nat ->
       nth_error (Game.pipes (state_at 182)) i = Some p ->
       nth_error (Game.pipes (state_at 182)) j = Some q ->
       Pipe.x p > Pipe.x q).
Proof.
  split; [apply state_at_reachable|].
  split; [by_evaluation|].
  intro H.
  assert (H0 : nth_error (Game.pipes (state_at 182)) 0
               = Some (Pipe.mk 36 250 (-4) false)) by by_evaluation.
  assert (H1 : nth_error (Game.pipes (state_at 182)) 1
               = Some (Pipe.mk 400 250 (-4) false)) by by_evaluation.
  specialize (H 0%nat 1%nat _ _ (Nat.lt_0_1) H0 H1).
  cbn [Pipe.x] in H. lia.
Qed.

(** ** Spacing (C10) *)

(** C10.  In every reachable state two pipes at different places of
    the list are at least [SPAWN_SPACING] = 91 * 4 = 364 apart in [x]
    (exactly that, in fact).  That is more than [PIPE_WIDTH], so the
    rectangles of one never meet those of the other horizontally. *)
Theorem distinct_pipes_spaced
  (g : Game.t) (i j : nat) (p q : Pipe.t) :
  reachable g -> i <> j ->
  nth_error (Game.pipes g) i = Some p ->
  nth_error (Game.pipes g) j = Some q ->
  364 <= Z.abs (Pipe.x p - Pipe.x q) /\
  Z.abs (Pipe.x p - Pipe.x q) = SPAWN_SPACING /\
  SPAWN_SPACING = 91 * 4 /\
  PIPE_WIDTH < SPAWN_SPACING /\
  ~ Rect.overlaps_horizontally
      (Pipe.get_upper_rect p) (Pipe.get_upper_rect q) /\
  ~ Rect.overlaps_horizontally
      (Pipe.get_upper_rect p) (Pipe.get_lower_rect q) /\
  ~ Rect.overlaps_horizontally
      (Pipe.get_lower_rect p) (Pipe.get_upper_rect q) /\
  ~ Rect.overlaps_horizontally
      (Pipe.get_lower_rect p) (Pipe.get_lower_rect q).
Proof.
  intros Hr Hij Hp Hq.
  destruct (reachable_Inv g Hr) as (_ & _ & Hc & Hok & Hs).
  rewrite Forall_forall in Hok.
  destruct (Hok p (nth_error_In _ _ Hp))
    as (_ & _ & Hxp & _ & kp & Hkp0 & Hkp).
  destruct (Hok q (nth_error_In _ _ Hq))
    as (_ & _ & Hxq & _ & kq & Hkq0 & Hkq).
  assert (Hd : Pipe.x p + SPAWN_SPACING <= Pipe.x q \/
               Pipe.x q + SPAWN_SPACING <= Pipe.x p).
  { destruct (Nat.lt_total i j) as [Hlt|[Heq|Hgt]]; [left|contradiction|right].
    - exact (StronglySorted_nth spaced _ i j p q Hs Hlt Hp Hq).
    - exact (StronglySorted_nth spaced _ j i q p Hs Hgt Hq Hp). }
  unfold Rect.overlaps_horizontally, Rect.left, Rect.right,
    Pipe.get_upper_rect, Pipe.get_lower_rect.
  cbn [Rect.x Rect.w].
  unfold SPAWN_SPACING, PIPE_WIDTH, SCREEN_WIDTH in *.
  assert (Hexact : Z.abs (Pipe.x p - Pipe.x q) = 364) by lia.
  split_all; try lia.
Qed.

Lemma distinct_pipes_spaced_witness :
  reachable (state_at 182) /\ 0%nat <> 1%nat /\
  nth_error (Game.pipes (state_at 182)) 0 = Some (Pipe.mk 36 250 (-4) false) /\
  nth_error (Game.pipes (state_at 182)) 1 = Some (Pipe.mk 400 250 (-4) false) /\
  364 <= Z.abs (Pipe.x (Pipe.mk 36 250 (-4) false)
                - Pipe.x (Pipe.mk 400 250 (-4) false)) /\
  Z.abs (Pipe.x (Pipe.mk 36 250 (-4) false)
         - Pipe.x (Pipe.mk 400 250 (-4) false)) = SPAWN_SPACING /\
  SPAWN_SPACING = 91 * 4 /\
  PIPE_WIDTH < SPAWN_SPACING /\
  ~ Rect.overlaps_horizontally
      (Pipe.get_upper_rect (Pipe.mk 36 250 (-4) false))
      (Pipe.get_upper_rect (Pipe.mk 400 250 (-4) false)) /\
  ~ Rect.overlaps_horizontally
      (Pipe.get_upper_rect (Pipe.mk 36 250 (-4) false))
      (Pipe.get_lower_rect (Pipe.mk 400 250 (-4) false)) /\
  ~ Rect.overlaps_horizontally
      (Pipe.get_lower_rect (Pipe.mk 36 250 (-4) false))
      (Pipe.get_upper_rect (Pipe.mk 400 250 (-4) false)) /\
  ~ Rect.overlaps_horizontally
      (Pipe.get_lower_rect (Pipe.mk 36 250 (-4) false))
      (Pipe.get_lower_rect (Pipe.mk 400 250 (-4) false)).
Proof.
  split; [apply state_at_reachable|].
  split; [discriminate|].
  split; [by_evaluation|].
  split; [by_evaluation|].
  apply (distinct_pipes_spaced (state_at 182) 0 1).
  - apply state_at_reachable.
  - discriminate.
  - by_evaluation.
  - by_evaluation.
Defined.

(** * Further properties of the game *)

(** ** Events (the rest of [_handle_events]) *)

Lemma handle_event_None (g : Game.t) (e : Event) :
  Game.handle_event g e = None <-> e = QUIT.
Proof.
  destruct e as [|key|]; simpl; split; intro H;
    try reflexivity; try discriminate.
Qed.

Lemma handle_events_None_iff (events : list Event) (g : Game.t) :
  Game._handle_events g events = None <-> In QUIT events.
Proof.
  revert g. induction events as [|e rest IH]; intro g; simpl.
  - split; [discriminate | intros []].
  - destruct (Game.handle_event g e) as [g1|] eqn:He.
    + rewrite IH. split; [now right|].
      intros [->|Hin]; [|exact Hin]. simpl in He. discriminate.
    + apply handle_event_None in He. subst e.
      split; [now left | reflexivity].
Qed.

(** X1.  [quit_game]: the events of a frame end the process exactly when
    a [QUIT] is among them, whatever the state and the other events;
    a session ends that way or not at all. *)
Theorem quit_iff_QUIT_event (g : Game.t) (events : list Event) :
  (Game._handle_events g events = None <-> In QUIT events) /\
  (forall gap_y, Game.frame g events gap_y = None <-> In QUIT events) /\
  (forall inputs,
     Game.run g inputs = None <->
     exists i, In i inputs /\ In QUIT (fst i)).
Proof.
  split; [apply handle_events_None_iff|].
  assert (Hf : forall g events gap_y,
             Game.frame g events gap_y = None <-> In QUIT events).
  { clear. intros g events gap_y. unfold Game.frame.
    rewrite <- (handle_events_None_iff events g).
    destruct (Game._handle_events g events); split; intro H';
      try reflexivity; discriminate. }
  split; [apply Hf|].
  intro inputs. revert g.
  induction inputs as [|[evs gap_y] rest IH]; intro g; cbn [Game.run].
  - split; [discriminate | intros [i [[] _]]].
  - destruct (Game.frame g evs gap_y) as [g1|] eqn:Hfr.
    + rewrite IH. split.
      * intros [i [Hi Hq]]. exists i. split; [now right | exact Hq].
      * intros [i [[<-|Hi] Hq]]; [|now exists i].
        apply (Hf g evs gap_y) in Hq. congruence.
    + split; [|reflexivity]. intros _.
      exists (evs, gap_y). split; [now left | now apply (Hf g evs gap_y)].
Qed.

Lemma jumped_jumped (g : Game.t) : jumped (jumped g) = jumped g.
Proof. reflexivity. Qed.

Lemma handle_event_playing (g : Game.t) (e : Event) :
  Game.game_over g = false -> e <> QUIT ->
  Game.handle_event g e = Some (if is_space e then jumped g else g).
Proof.
  intros Hplay Hq. destruct e as [|key|]; [contradiction | | reflexivity].
  simpl. rewrite Hplay. simpl.
  destruct (key =? K_SPACE); simpl; now rewrite Hplay.
Qed.

Lemma handle_events_playing_eq (events : list Event) (g : Game.t) :
  Game.game_over g = false -> ~ In QUIT events ->
  Game._handle_events g events =
    Some (if existsb is_space events then jumped g else g).
Proof.
  revert g. induction events as [|e rest IH]; intros g Hplay Hq;
    [reflexivity|].
  assert (He : e <> QUIT) by (intros ->; apply Hq; now left).
  assert (Hrest : ~ In QUIT rest) by (intro H; apply Hq; now right).
  cbn [Game._handle_events existsb].
  rewrite (handle_event_playing g e Hplay He).
  destruct (is_space e); cbn [orb].
  - rewrite (IH (jumped g)) by (exact Hplay || exact Hrest).
    rewrite jumped_jumped. now destruct (existsb is_space rest).
  - now apply IH.
Qed.

(** X2.  While the game is on, the events of a frame (none of them [QUIT])
    do one thing only: if the space bar was pressed, once or more, the
    bird's velocity is [JUMP_STRENGTH], whatever it was; otherwise the
    state is as it was.  Position, pipes, score, counter and the
    game-over flag are never touched. *)
Theorem events_while_playing (g : Game.t) (events : list Event) :
  Game.game_over g = false -> ~ In QUIT events ->
  Game._handle_events g events =
    Some (if existsb is_space events then jumped g else g) /\
  jumped g =
    {| Game.bird :=
         {| Bird.x := Bird.x (Game.bird g); Bird.y := Bird.y (Game.bird g);
            Bird.size := Bird.size (Game.bird g);
            Bird.velocity := inject_Z JUMP_STRENGTH |};
       Game.pipes := Game.pipes g; Game.score := Game.score g;
       Game.game_over := false;
       Game.pipe_spawn_counter := Game.pipe_spawn_counter g |}.
Proof.
  intros Hplay Hq. split; [now apply handle_events_playing_eq|].
  unfold jumped, Game.with_bird, Bird.jump. now rewrite Hplay.
Qed.

Lemma events_while_playing_witness :
  Game.game_over (state_at 100) = false /\
  ~ In QUIT [OTHER; KEYDOWN K_SPACE; KEYDOWN 97; KEYDOWN K_SPACE] /\
  Game._handle_events (state_at 100)
    [OTHER; KEYDOWN K_SPACE; KEYDOWN 97; KEYDOWN K_SPACE] =
    Some (if existsb is_space
               [OTHER; KEYDOWN K_SPACE; KEYDOWN 97; KEYDOWN K_SPACE]
          then jumped (state_at 100) else state_at 100) /\
  jumped (state_at 100) =
    {| Game.bird :=
         {| Bird.x := Bird.x (Game.bird (state_at 100));
            Bird.y := Bird.y (Game.bird (state_at 100));
            Bird.size := Bird.size (Game.bird (state_at 100));
            Bird.velocity := inject_Z JUMP_STRENGTH |};
       Game.pipes := Game.pipes (state_at 100);
       Game.score := Game.score (state_at 100);
       Game.game_over := false;
       Game.pipe_spawn_counter := Game.pipe_spawn_counter (state_at 100) |}.
Proof.
  assert (Hq : ~ In QUIT [OTHER; KEYDOWN K_SPACE; KEYDOWN 97; KEYDOWN K_SPACE]).
  { simpl. intros H. repeat (destruct H as [H|H]; try discriminate H). exact H. }
  split; [by_evaluation|].
  split; [exact Hq|].
  apply (events_while_playing (state_at 100)
           [OTHER; KEYDOWN K_SPACE; KEYDOWN 97; KEYDOWN K_SPACE]).
  - by_evaluation.
  - exact Hq.
Defined.

Lemma handle_events_app (g : Game.t) (a b : list Event) :
  Game._handle_events g (a ++ b) =
  match Game._handle_events g a with
  | Some g1 => Game._handle_events g1 b
  | None => None
  end.
Proof.
  revert g. induction a as [|e rest IH]; intro g; [reflexivity|].
  cbn [app Game._handle_events].
  destruct (Game.handle_event g e); [apply IH | reflexivity].
Qed.

Lemma handle_events_over_same (g : Game.t) (events : list Event) :
  Game.game_over g = true -> no_restart events -> ~ In QUIT events ->
  Game._handle_events g events = Some g.
Proof.
  intros Hover Hn Hq.
  revert Hn Hq. induction events as [|e rest IH]; intros Hn Hq;
    [reflexivity|].
  assert (Hrest : no_restart rest) by (intro H; apply Hn; now right).
  assert (Hqrest : ~ In QUIT rest) by (intro H; apply Hq; now right).
  destruct e as [|key|]; cbn [Game._handle_events Game.handle_event].
  - exfalso. apply Hq. now left.
  - assert (Hk : (key =? K_SPACE) = false).
    { apply Z.eqb_neq. intros ->. apply Hn. now left. }
    rewrite Hk, Hover. cbn [negb]. rewrite Hover. now apply IH.
  - now apply IH.
Qed.

(** X3.  [reset_game]: on the game-over screen the first press of the space
    bar starts the game anew, and nothing of the old game is left: the
    rest of the session runs exactly as it would in a process just
    started, on the events that follow the press in that frame. *)
Theorem restart_is_fresh_start
  (g : Game.t) (before after : list Event) (gap_y : Z)
  (rest : list (list Event * Z)) :
  Game.game_over g = true -> no_restart before -> ~ In QUIT before ->
  Game._handle_events g (before ++ KEYDOWN K_SPACE :: after)
    = Game._handle_events Game.init after /\
  Game.run g ((before ++ KEYDOWN K_SPACE :: after, gap_y) :: rest)
    = Game.run Game.init ((after, gap_y) :: rest).
Proof.
  intros Hover Hn Hq.
  assert (He : Game._handle_events g (before ++ KEYDOWN K_SPACE :: after)
               = Game._handle_events Game.init after).
  { rewrite handle_events_app, (handle_events_over_same g before Hover Hn Hq).
    cbn [Game._handle_events Game.handle_event].
    rewrite Hover. cbn [negb]. rewrite Hover.
    rewrite Z.eqb_refl. reflexivity. }
  split; [exact He|].
  cbn [Game.run]. unfold Game.frame. now rewrite He.
Qed.

Lemma restart_is_fresh_start_witness :
  Game.game_over (idle_at 40) = true /\
  no_restart [OTHER; KEYDOWN 97] /\ ~ In QUIT [OTHER; KEYDOWN 97] /\
  Game._handle_events (idle_at 40)
    ([OTHER; KEYDOWN 97] ++ KEYDOWN K_SPACE :: [KEYDOWN K_SPACE])
    = Game._handle_events Game.init [KEYDOWN K_SPACE] /\
  Game.run (idle_at 40)
    (([OTHER; KEYDOWN 97] ++ KEYDOWN K_SPACE :: [KEYDOWN K_SPACE], 200)
       :: idle 5)
    = Game.run Game.init (([KEYDOWN K_SPACE], 200) :: idle 5).
Proof.
  assert (Hn : no_restart [OTHER; KEYDOWN 97]).
  { unfold no_restart. simpl. intros H.
    repeat (destruct H as [H|H]; try discriminate H). exact H. }
  assert (Hq : ~ In QUIT [OTHER; KEYDOWN 97]).
  { simpl. intros H. repeat (destruct H as [H|H]; try discriminate H). exact H. }
  split; [by_evaluation|].
  split; [exact Hn|]. split; [exact Hq|].
  apply (restart_is_fresh_start (idle_at 40) [OTHER; KEYDOWN 97]
           [KEYDOWN K_SPACE] 200 (idle 5)).
  - by_evaluation.
  - exact Hn.
  - exact Hq.
Defined.

(** ** The game-over flag and the scene *)

Lemma handle_events_cases (events : list Event) (g g1 : Game.t) :
  Game._handle_events g events = Some g1 ->
  (Game.game_over g = false /\ (g1 = g \/ g1 = jumped g)) \/
  (Game.game_over g = true /\
   (g1 = g \/ g1 = Game.init \/ g1 = jumped Game.init)).
Proof.
  intro He.
  assert (Hq : ~ In QUIT events).
  { intro H. apply (handle_events_None_iff events g) in H. congruence. }
  destruct (Game.game_over g) eqn:Hover.
  - right. split; [reflexivity|].
    revert He Hq. induction events as [|e rest IH]; intros He Hq.
    + left. simpl in He. congruence.
    + assert (Hqrest : ~ In QUIT rest) by (intro H; apply Hq; now right).
      destruct e as [|key|]; cbn [Game._handle_events Game.handle_event] in He.
      * discriminate.
      * rewrite Hover in He. cbn [negb] in He. rewrite Hover in He.
        destruct (key =? K_SPACE); [|now apply IH].
        change (Game.reset_game g) with Game.init in He.
        rewrite handle_events_playing_eq in He by (reflexivity || exact Hqrest).
        right. destruct (existsb is_space rest); [right|left]; congruence.
      * now apply IH.
  - left. split; [reflexivity|].
    rewrite handle_events_playing_eq in He by assumption.
    destruct (existsb is_space events); [right|left]; congruence.
Qed.

Lemma update_flag_is_scene (gap_y : Z) (g : Game.t) :
  Game.game_over g = false ->
  Game.game_over (Game.update gap_y g) = scene_collides (Game.update gap_y g).
Proof.
  intro Hplay. rewrite update_playing by exact Hplay.
  rewrite check_collisions_eq.
  unfold scene_collides.
  cbn [Game.with_game_over Game.bird Game.pipes Game.game_over].
  rewrite before_check_eq.
  cbn [Game.bird Game.pipes Game.game_over]. now rewrite Hplay.
Qed.

Lemma reachable_flag_is_scene (g : Game.t) :
  reachable g -> Game.game_over g = scene_collides g.
Proof.
  induction 1 as [|g g' events gap_y Hr IH Hgap Hf]; [reflexivity|].
  unfold Game.frame in Hf.
  destruct (Game._handle_events g events) as [g1|] eqn:He; [|discriminate].
  injection Hf as <-.
  destruct (Game.game_over g1) eqn:H1; [|now apply update_flag_is_scene].
  rewrite update_over by exact H1.
  apply handle_events_cases in He
    as [[Hg [->| ->]] | [Hg [->|[->| ->]]]];
    try (cbn in H1; congruence); try exact IH.
Qed.

Lemma hits_false_iff_clear (b : Bird.t) (p : Pipe.t) :
  Bird.size b = 20 -> valid_gap (Pipe.gap_y p) ->
  0 <= Rect.top (Bird.get_rect b) ->
  Rect.bottom (Bird.get_rect b) <= SCREEN_HEIGHT ->
  hits (Bird.get_rect b) p = false <-> clear_of (Bird.get_rect b) p.
Proof.
  intros Hs Hg Htop Hbot.
  unfold valid_gap, PIPE_GAP, SCREEN_HEIGHT in Hg.
  unfold hits. rewrite orb_false_iff.
  assert (Hu : Rect.colliderect (Bird.get_rect b) (Pipe.get_upper_rect p)
               = false <->
               ~ Rect.overlaps (Bird.get_rect b) (Pipe.get_upper_rect p)).
  { rewrite <- colliderect_overlaps.
    - symmetry. apply not_true_iff_false.
    - unfold Bird.get_rect; cbn [Rect.w]; lia.
    - unfold Bird.get_rect; cbn [Rect.h]; lia.
    - cbn [Pipe.get_upper_rect Rect.w]; unfold PIPE_WIDTH; lia.
    - unfold Pipe.get_upper_rect; cbn [Rect.h]; unfold PIPE_GAP;
        change (150 / 2) with 75; lia. }
  assert (Hl : Rect.colliderect (Bird.get_rect b) (Pipe.get_lower_rect p)
               = false <->
               ~ Rect.overlaps (Bird.get_rect b) (Pipe.get_lower_rect p)).
  { rewrite <- colliderect_overlaps.
    - symmetry. apply not_true_iff_false.
    - unfold Bird.get_rect; cbn [Rect.w]; lia.
    - unfold Bird.get_rect; cbn [Rect.h]; lia.
    - cbn [Pipe.get_lower_rect Rect.w]; unfold PIPE_WIDTH; lia.
    - unfold Pipe.get_lower_rect; cbn [Rect.h]; unfold SCREEN_HEIGHT; lia. }
  rewrite Hu, Hl.
  unfold clear_of, Rect.overlaps, Rect.left, Rect.right, Rect.top,
    Rect.bottom, Bird.get_rect, Pipe.get_upper_rect, Pipe.get_lower_rect
    in *.
  cbn [Rect.x Rect.y Rect.w Rect.h] in *. rewrite Hs in *.
  unfold PIPE_WIDTH, PIPE_GAP, SCREEN_HEIGHT in *.
  change (150 / 2) with 75. lia.
Qed.

(** X4.  At the top of every iteration of [run] the game-over flag tells
    what the scene shows: the game is on exactly when the bird's
    rectangle lies within the height of the screen and, for every pipe
    of the list, is beside the pipe or inside its gap.  In particular
    the frozen state of a game that is over still shows the collision
    that ended it. *)
Theorem playing_iff_clear (g : Game.t) :
  reachable g ->
  Game.game_over g = false <->
  (0 <= Rect.top (Bird.get_rect (Game.bird g)) /\
   Rect.bottom (Bird.get_rect (Game.bird g)) <= SCREEN_HEIGHT /\
   forall p, In p (Game.pipes g) ->
             clear_of (Bird.get_rect (Game.bird g)) p).
Proof.
  intro Hr.
  rewrite (reachable_flag_is_scene g Hr).
  destruct (reachable_Inv g Hr) as (_ & Hsize & _ & Hok & _).
  rewrite Forall_forall in Hok.
  unfold scene_collides.
  rewrite !orb_false_iff, Z.ltb_ge.
  assert (Hgt : (Rect.bottom (Bird.get_rect (Game.bird g)) >? SCREEN_HEIGHT)
                = false <->
                Rect.bottom (Bird.get_rect (Game.bird g)) <= SCREEN_HEIGHT).
  { rewrite Z.gtb_ltb, Z.ltb_ge. reflexivity. }
  rewrite Hgt.
  split.
  - intros [[Hex Htop] Hbot]. split; [exact Htop|]. split; [exact Hbot|].
    intros p Hp.
    destruct (Hok p Hp) as (_ & Hgap & _).
    apply (hits_false_iff_clear _ p Hsize Hgap Htop Hbot).
    destruct (hits (Bird.get_rect (Game.bird g)) p) eqn:Hh; [|reflexivity].
    assert (Hx : existsb (hits (Bird.get_rect (Game.bird g))) (Game.pipes g)
                 = true) by (apply existsb_exists; now exists p).
    congruence.
  - intros (Htop & Hbot & Hall). split; [split|]; try assumption.
    destruct (existsb _ _) eqn:Hx; [|reflexivity].
    apply existsb_exists in Hx as [p [Hp Hh]].
    destruct (Hok p Hp) as (_ & Hgap & _).
    apply (hits_false_iff_clear _ p Hsize Hgap Htop Hbot) in Hall;
      [congruence | exact Hp].
Qed.

Lemma playing_iff_clear_witness :
  reachable (state_at 180) /\
  (Game.game_over (state_at 180) = false <->
   (0 <= Rect.top (Bird.get_rect (Game.bird (state_at 180))) /\
    Rect.bottom (Bird.get_rect (Game.bird (state_at 180))) <= SCREEN_HEIGHT /\
    forall p, In p (Game.pipes (state_at 180)) ->
              clear_of (Bird.get_rect (Game.bird (state_at 180))) p)).
Proof.
  split; [apply state_at_reachable|].
  apply (playing_iff_clear (state_at 180)).
  apply state_at_reachable.
Defined.

(** ** The timeline of a game *)

Lemma prune_xs (ps : list Pipe.t) :
  map Pipe.x (Game.prune ps) =
  filter (fun x => negb (x <? - PIPE_WIDTH)) (map Pipe.x ps).
Proof.
  unfold Game.prune, Pipe.off_screen.
  induction ps as [|p rest IH]; [reflexivity|].
  cbn [map filter].
  destruct (Pipe.x p <? - PIPE_WIDTH); cbn [negb map]; now rewrite IH.
Qed.

Lemma move_xs (ps : list Pipe.t) :
  Forall (fun p => Pipe.velocity p = -4) ps ->
  map Pipe.x (map Pipe.move ps) = map (fun x => x + -4) (map Pipe.x ps).
Proof.
  induction 1 as [|p rest Hp _ IH]; [reflexivity|].
  cbn [map]. rewrite IH. unfold Pipe.move at 1. cbn [Pipe.x].
  now rewrite Hp.
Qed.

Lemma Inv_velocities (g : Game.t) :
  Inv g -> Forall (fun p => Pipe.velocity p = -4) (Game.pipes g).
Proof.
  intros (_ & _ & _ & Hok & _).
  eapply Forall_impl; [|exact Hok]. now intros p (Hv & _).
Qed.

Lemma visited_xs (gap_y : Z) (g : Game.t) :
  Inv g ->
  map Pipe.x (visited gap_y g) =
  filter (fun x => negb (x <? - PIPE_WIDTH))
    (map (fun x => x + -4) (map Pipe.x (Game.pipes g)) ++
     (if Game.pipe_spawn_counter g + 1 >? 90 then [SCREEN_WIDTH] else [])).
Proof.
  intro HI. rewrite visited_eq, prune_xs.
  destruct (Game.pipe_spawn_counter g + 1 >? 90).
  - rewrite map_app, move_xs by now apply Inv_velocities. reflexivity.
  - rewrite move_xs by now apply Inv_velocities. now rewrite app_nil_r.
Qed.

Lemma crossing_visited (gap_y : Z) (g : Game.t) (p : Pipe.t) :
  Inv g -> In p (visited gap_y g) ->
  crossing 50 p = just_passed (Pipe.x p).
Proof.
  intros (_ & _ & _ & Hok & _) Hp. rewrite Forall_forall in Hok.
  unfold crossing, just_passed.
  apply In_visited in Hp as [[q (Hq & -> & _)] | [_ ->]].
  - destruct (Hok q Hq) as (Hv & _ & _ & Hpq & _).
    unfold Pipe.move. cbn [Pipe.x Pipe.passed]. rewrite Hv.
    f_equal. f_equal.
    destruct (Pipe.passed q) eqn:E.
    + symmetry. apply Z.ltb_lt.
      assert (Pipe.x q + PIPE_WIDTH < 50) by now apply Hpq. lia.
    + symmetry. apply Z.ltb_ge.
      destruct (Z.lt_ge_cases (Pipe.x q + PIPE_WIDTH) 50) as [H|H];
        [apply Hpq in H; discriminate | lia].
  - unfold Pipe.init, SCREEN_WIDTH, PIPE_WIDTH. reflexivity.
Qed.

Lemma filter_ext_in_length {A : Type} (f h : A -> bool) (l : list A) :
  (forall a, In a l -> f a = h a) ->
  length (filter f l) = length (filter h l).
Proof.
  intro H. now rewrite (filter_ext_in f h l H).
Qed.

Lemma filter_map_length {A B : Type} (f : B -> bool) (k : A -> B)
  (l : list A) :
  length (filter f (map k l)) = length (filter (fun a => f (k a)) l).
Proof.
  induction l as [|a rest IH]; [reflexivity|].
  cbn [map filter]. destruct (f (k a)); cbn [length]; now rewrite IH.
Qed.

(** The pipes and the score of a played frame, read off the positions
    alone. *)
Lemma before_check_timeline (gap_y : Z) (g : Game.t) :
  Inv g ->
  let xs :=
    filter (fun x => negb (x <? - PIPE_WIDTH))
      (map (fun x => x + -4) (map Pipe.x (Game.pipes g)) ++
       (if Game.pipe_spawn_counter g + 1 >? 90 then [SCREEN_WIDTH] else []))
  in
  map Pipe.x (Game.pipes (Game.before_check gap_y g)) = xs /\
  Game.score (Game.before_check gap_y g) =
    Game.score g + Z.of_nat (length (filter just_passed xs)) /\
  Game.pipe_spawn_counter (Game.before_check gap_y g) =
    if Game.pipe_spawn_counter g + 1 >? 90 then 0
    else Game.pipe_spawn_counter g + 1.
Proof.
  intros HI xs. rewrite before_check_eq.
  cbn [Game.pipes Game.score Game.pipe_spawn_counter].
  destruct HI as (Hbx & HI').
  assert (HI : Inv g) by (split; assumption).
  rewrite Hbx.
  split; [|split; [|reflexivity]].
  - rewrite map_map.
    rewrite (map_ext _ Pipe.x) by (intro p; apply mark_x).
    now apply visited_xs.
  - f_equal. f_equal. unfold xs.
    rewrite <- (visited_xs gap_y g HI), filter_map_length.
    apply filter_ext_in_length. intros p Hp.
    now apply (crossing_visited gap_y g).
Qed.

Ltac case_bools :=
  repeat (cbn [andb orb negb app map filter length];
          match goal with
          | |- context [Z.gtb ?a ?b] => rewrite (Z.gtb_ltb a b)
          | |- context [Z.leb ?a ?b] => destruct (Z.leb_spec a b)
          | |- context [Z.ltb ?a ?b] => destruct (Z.ltb_spec a b)
          end; try lia).

Lemma timeline_arith (n : Z) :
  0 <= n ->
  filter (fun x => negb (x <? - PIPE_WIDTH))
    (map (fun x => x + -4) (pipe_xs n) ++
     (if n mod 91 + 1 >? 90 then [SCREEN_WIDTH] else []))
  = pipe_xs (n + 1) /\
  score_after n + Z.of_nat (length (filter just_passed (pipe_xs (n + 1))))
  = score_after (n + 1) /\
  (if n mod 91 + 1 >? 90 then 0 else n mod 91 + 1) = (n + 1) mod 91.
Proof.
  intro Hn.
  unfold pipe_xs, score_after, just_passed, PIPE_WIDTH, SCREEN_WIDTH.
  Z.div_mod_to_equations.
  split; [|split]; case_bools;
    cbn [andb orb negb app map filter length];
    repeat match goal with
           | |- cons _ _ = cons _ _ => apply f_equal2
           end;
    try reflexivity; lia.
Qed.

Lemma timeline_update (gap_y : Z) (g : Game.t) (n : Z) :
  0 <= n -> Inv g -> Game.game_over g = false ->
  timeline n g -> timeline (n + 1) (Game.update gap_y g).
Proof.
  intros Hn HI Hplay (Hc & Hxs & Hsc).
  rewrite update_playing by exact Hplay.
  rewrite check_collisions_eq.
  unfold timeline.
  cbn [Game.with_game_over Game.pipes Game.score Game.pipe_spawn_counter].
  destruct (before_check_timeline gap_y g HI) as (Ex & Es & Ec).
  destruct (timeline_arith n Hn) as (Ax & As & Ac).
  rewrite Ex, Es, Ec, Hc, Hxs, Hsc, Ax. auto.
Qed.

Lemma timeline_start : timeline 0 Game.init.
Proof. repeat split. Qed.

Lemma played_reachable (n : nat) (g : Game.t) : played n g -> reachable g.
Proof.
  induction 1 as [|n g g1 events gap_y _ IH Hgap He];
    [apply reachable_init|].
  apply (reachable_frame g _ events gap_y IH Hgap).
  unfold Game.frame. now rewrite He.
Qed.

Lemma reachable_played (g : Game.t) : reachable g -> exists n, played n g.
Proof.
  induction 1 as [|g g' events gap_y _ [n IH] Hgap Hf].
  - exists 0%nat. apply played_init.
  - unfold Game.frame in Hf.
    destruct (Game._handle_events g events) as [g1|] eqn:He; [|discriminate].
    injection Hf as <-.
    exists (next_index n g g1). now apply (played_frame n g g1 events).
Qed.

Lemma played_timeline (n : nat) (g : Game.t) :
  played n g -> timeline (Z.of_nat n) g.
Proof.
  induction 1 as [|n g g1 events gap_y Hp IH Hgap He];
    [exact timeline_start|].
  pose proof (Inv_handle_events events g g1
                (reachable_Inv g (played_reachable n g Hp)) He) as HI1.
  unfold next_index.
  destruct (handle_events_cases events g g1 He)
    as [[Hg [->| ->]] | [Hg [->|[->| ->]]]].
  - rewrite Hg, Nat2Z.inj_succ, <- Z.add_1_r.
    apply timeline_update; [lia | exact HI1 | exact Hg | exact IH].
  - change (Game.game_over (jumped g)) with (Game.game_over g).
    rewrite Hg, Nat2Z.inj_succ, <- Z.add_1_r.
    apply timeline_update; [lia | exact HI1 | exact Hg | exact IH].
  - rewrite Hg, update_over by exact Hg. exact IH.
  - rewrite Hg. cbn [Game.game_over Game.init].
    apply (timeline_update gap_y Game.init 0);
      [lia | exact Inv_init | reflexivity | exact timeline_start].
  - rewrite Hg. cbn [Game.game_over Game.init jumped Game.with_bird].
    apply (timeline_update gap_y (jumped Game.init) 0);
      [lia | exact HI1 | reflexivity | exact timeline_start].
Qed.

Lemma run_played (inputs : list (list Event * Z)) (n : nat) (g g' : Game.t) :
  played n g -> Forall (fun i => valid_gap (snd i)) inputs ->
  Game.run g inputs = Some g' -> played (count_played g n inputs) g'.
Proof.
  revert n g. induction inputs as [|[events gap_y] rest IH];
    intros n g Hp Hv Hrun; cbn [Game.run count_played] in *.
  - congruence.
  - inversion Hv as [|? ? Hgap Hrest]; subst.
    unfold Game.frame in Hrun.
    destruct (Game._handle_events g events) as [g1|] eqn:He; [|discriminate].
    apply IH; [|exact Hrest|exact Hrun].
    now apply (played_frame n g g1 events).
Qed.

Lemma state_at_played (n : nat) :
  count_played Game.init 0 (script 250 n) = n ->
  Game.run Game.init (script 250 n) <> None ->
  played n (state_at n).
Proof.
  intros Hc Hrun. unfold state_at, session.
  destruct (Game.run Game.init (script 250 n)) as [g|] eqn:E;
    [|contradiction].
  rewrite <- Hc at 1.
  apply run_played; [apply played_init | | exact E].
  apply script_valid. unfold valid_gap, PIPE_GAP, SCREEN_HEIGHT. lia.
Qed.

(** X5.  The course of a game is fixed by the number [n] of frames played
    since it was started or reset, whatever the player does and
    whatever gaps are drawn: the spawn counter is [n mod 91], so a pipe
    is spawned in every 91st frame; the list of the pipes' positions is
    [pipe_xs n]: empty before frame 91; from frame 91 on, the pipe at
    [400 - 4 * (n mod 91)]; and from frame 182 on, while
    [n mod 91 <= 29], in front of it the pipe spawned before, at
    [36 - 4 * (n mod 91)]; and the score is [max 0 ((n - 108) / 91)]:
    the first point in frame 199, one more every 91 frames. *)
Theorem timeline_of_a_game (n : nat) (g : Game.t) :
  played n g ->
  reachable g /\
  Game.pipe_spawn_counter g = Z.of_nat n mod 91 /\
  map Pipe.x (Game.pipes g) = pipe_xs (Z.of_nat n) /\
  Game.score g = Z.max 0 ((Z.of_nat n - 108) / 91).
Proof.
  intro Hp. split; [now apply (played_reachable n)|].
  exact (played_timeline n g Hp).
Qed.

Lemma timeline_of_a_game_witness :
  played 300 (state_at 300) /\
  reachable (state_at 300) /\
  Game.pipe_spawn_counter (state_at 300) = Z.of_nat 300 mod 91 /\
  map Pipe.x (Game.pipes (state_at 300)) = pipe_xs (Z.of_nat 300) /\
  Game.score (state_at 300) = Z.max 0 ((Z.of_nat 300 - 108) / 91).
Proof.
  assert (Hp : played 300 (state_at 300)).
  { apply state_at_played; [by_evaluation|].
    vm_compute. discriminate. }
  split; [exact Hp|].
  apply (timeline_of_a_game 300 (state_at 300)). exact Hp.
Defined.

Lemma score_after_step (n : Z) :
  0 <= n -> score_after n <= score_after (n + 1) <= score_after n + 1.
Proof.
  intros Hn. unfold score_after. Z.div_mod_to_equations. lia.
Qed.

Lemma handle_events_restart (events : list Event) (g g1 : Game.t) :
  Game.game_over g = true ->
  In (KEYDOWN K_SPACE) events ->
  Game._handle_events g events = Some g1 ->
  g1 = Game.init \/ g1 = jumped Game.init.
Proof.
  intros Hover Hin He.
  induction events as [|e rest IH]; [destruct Hin|].
  destruct e as [|key|]; cbn [Game._handle_events Game.handle_event] in He.
  - discriminate.
  - rewrite Hover in He. cbn [negb] in He. rewrite Hover in He.
    destruct (key =? K_SPACE) eqn:Hk.
    + change (Game.reset_game g) with Game.init in He.
      destruct (handle_events_cases rest Game.init g1 He)
        as [[_ H] | [H _]]; [exact H | discriminate].
    + apply IH; [|exact He].
      destruct Hin as [Hin|Hin]; [|exact Hin].
      apply Z.eqb_neq in Hk. congruence.
  - apply IH; [|exact He].
    destruct Hin as [Hin|Hin]; [discriminate | exact Hin].
Qed.

(** X6.  The score never goes down while a game is played and goes up by
    at most one a frame.  On the game-over screen a frame without a
    press of the space bar leaves it as it is, and a frame with one,
    which resets the game, leaves it at 0. *)
Theorem score_steps (g g' : Game.t) (events : list Event) (gap_y : Z) :
  reachable g ->
  Game.frame g events gap_y = Some g' ->
  (Game.game_over g = false ->
   Game.score g <= Game.score g' <= Game.score g + 1) /\
  (Game.game_over g = true ->
   (no_restart events ->
    Game.score g' = Game.score g /\ Game.game_over g' = true) /\
   (In (KEYDOWN K_SPACE) events ->
    Game.score g' = 0 /\ Game.pipes g' = [])).
Proof.
  intros Hr Hf.
  destruct (reachable_played g Hr) as [n Hp].
  pose proof (played_timeline n g Hp) as Ht.
  unfold Game.frame in Hf.
  destruct (Game._handle_events g events) as [g1|] eqn:He; [|discriminate].
  injection Hf as <-.
  pose proof (Inv_handle_events events g g1 (reachable_Inv g Hr) He) as HI1.
  assert (Hplay : forall g0, Inv g0 -> Game.game_over g0 = false ->
            timeline (Z.of_nat n) g0 ->
            Game.score g0 <= Game.score (Game.update gap_y g0)
              <= Game.score g0 + 1).
  { intros g0 HI0 Hg0 Ht0.
    pose proof (timeline_update gap_y g0 (Z.of_nat n) (Nat2Z.is_nonneg n)
                  HI0 Hg0 Ht0) as (_ & _ & Hs').
    destruct Ht0 as (_ & _ & Hs0). rewrite Hs', Hs0.
    apply score_after_step. lia. }
  assert (Hfresh : forall g0, Inv g0 -> Game.game_over g0 = false ->
            timeline 0 g0 ->
            Game.score (Game.update gap_y g0) = 0 /\
            Game.pipes (Game.update gap_y g0) = []).
  { intros g0 HI0 Hg0 Ht0.
    pose proof (timeline_update gap_y g0 0 (Z.le_refl 0) HI0 Hg0 Ht0)
      as (_ & Hx & Hs').
    split; [exact Hs'|].
    destruct (Game.pipes (Game.update gap_y g0)); [reflexivity|].
    discriminate Hx. }
  split; intro Hg.
  - destruct (handle_events_cases events g g1 He)
      as [[_ [->| ->]] | [Hg' _]]; [| |congruence].
    + now apply Hplay.
    + now apply (Hplay (jumped g)).
  - split.
    + intro Hn. apply handle_events_no_jump in He; [|exact Hn]. subst g1.
      rewrite update_over by exact Hg. now split.
    + intro Hin.
      destruct (handle_events_restart events g g1 Hg Hin He) as [->| ->];
        (apply Hfresh; [exact HI1 | reflexivity | exact timeline_start]).
Qed.

Lemma score_steps_witness :
  (reachable (state_at 198) /\
   Game.frame (state_at 198) [] 250 = Some (state_at 199) /\
   Game.game_over (state_at 198) = false /\
   Game.score (state_at 198) = 0 /\
   Game.score (state_at 199) = 1 /\
   (Game.game_over (state_at 198) = false ->
    Game.score (state_at 198) <= Game.score (state_at 199)
      <= Game.score (state_at 198) + 1)) /\
  (reachable (idle_at 40) /\
   Game.frame (idle_at 40) [KEYDOWN K_SPACE] 300
     = Some (session (idle 40 ++ [press])) /\
   Game.game_over (idle_at 40) = true /\
   In (KEYDOWN K_SPACE) [KEYDOWN K_SPACE] /\
   Game.score (session (idle 40 ++ [press])) = 0 /\
   Game.pipes (session (idle 40 ++ [press])) = []).
Proof.
  split.
  - split; [apply state_at_reachable|].
    split; [by_evaluation|]. split; [by_evaluation|].
    split; [by_evaluation|]. split; [by_evaluation|].
    apply (score_steps (state_at 198) (state_at 199) [] 250).
    + apply state_at_reachable.
    + by_evaluation.
  - assert (Hf : Game.frame (idle_at 40) [KEYDOWN K_SPACE] 300
                 = Some (session (idle 40 ++ [press]))) by by_evaluation.
    assert (Hover : Game.game_over (idle_at 40) = true) by by_evaluation.
    split; [apply idle_at_reachable|].
    split; [exact Hf|]. split; [exact Hover|].
    split; [now left|].
    apply (score_steps (idle_at 40) _ [KEYDOWN K_SPACE] 300
             (idle_at_reachable 40) Hf); [exact Hover | now left].
Defined.

(** ** Ranges *)

(** X7.  In every reachable state the bird is where the constructor put it
    horizontally ([x = 50], [size = 20]); its [y] and velocity are
    multiples of one half with [-11 < y < 610] and
    [-10 <= velocity < 27]; and while the game is on,
    [-1 < y < 581]. *)
Theorem bird_stays_in_range (g : Game.t) :
  reachable g ->
  Bird.x (Game.bird g) = 50 /\ Bird.size (Game.bird g) = 20 /\
  (exists m : Z, (Bird.y (Game.bird g) * 2 == inject_Z m)%Q) /\
  (exists m : Z, (Bird.velocity (Game.bird g) * 2 == inject_Z m)%Q) /\
  (-10 <= Bird.velocity (Game.bird g) < 27)%Q /\
  (-11 < Bird.y (Game.bird g) < 610)%Q /\
  (Game.game_over g = false -> (-1 < Bird.y (Game.bird g) < 581)%Q).
Proof.
  intro Hr.
  destruct (reachable_Inv g Hr) as (Hx & Hs & _).
  destruct (reachable_bird_in_range g Hr)
    as ((Hy & Hv & Hlo & _ & Hwide & Hplay) & Hhi).
  repeat (split; try assumption).
Qed.

Lemma bird_stays_in_range_witness :
  reachable (state_at 100) /\
  Bird.x (Game.bird (state_at 100)) = 50 /\
  Bird.size (Game.bird (state_at 100)) = 20 /\
  (exists m : Z, (Bird.y (Game.bird (state_at 100)) * 2 == inject_Z m)%Q) /\
  (exists m : Z,
     (Bird.velocity (Game.bird (state_at 100)) * 2 == inject_Z m)%Q) /\
  (-10 <= Bird.velocity (Game.bird (state_at 100)) < 27)%Q /\
  (-11 < Bird.y (Game.bird (state_at 100)) < 610)%Q /\
  (Game.game_over (state_at 100) = false ->
   (-1 < Bird.y (Game.bird (state_at 100)) < 581)%Q).
Proof.
  split; [apply state_at_reachable|].
  apply (bird_stays_in_range (state_at 100)).
  apply state_at_reachable.
Defined.

Lemma pipe_xs_length (n : Z) : (length (pipe_xs n) <= 2)%nat.
Proof.
  unfold pipe_xs.
  destruct ((2 <=? n / 91) && (n mod 91 <=? 29)), (1 <=? n / 91);
    cbn [app length]; lia.
Qed.

(** X8.  In every reachable state the list holds at most two pipes, and
    each of them has the speed -4, its gap centre where the generator
    put it (between 150 and 450, so that both of its rectangles are at
    least 75 high on the screen), an [x] that is a multiple of 4 between
    -80 and 400, and the mark set exactly when its right edge is left of
    the bird's [x]. *)
Theorem pipes_stay_in_range (g : Game.t) (p : Pipe.t) :
  reachable g -> In p (Game.pipes g) ->
  (length (Game.pipes g) <= 2)%nat /\
  Pipe.velocity p = -4 /\
  PIPE_GAP <= Pipe.gap_y p <= SCREEN_HEIGHT - PIPE_GAP /\
  75 <= Rect.h (Pipe.get_upper_rect p) /\
  Rect.top (Pipe.get_lower_rect p) <= SCREEN_HEIGHT - 75 /\
  - PIPE_WIDTH <= Pipe.x p <= SCREEN_WIDTH /\
  Pipe.x p mod 4 = 0 /\
  (Pipe.passed p = true <->
   Pipe.x p + PIPE_WIDTH < Bird.x (Game.bird g)).
Proof.
  intros Hr Hp.
  destruct (reachable_played g Hr) as [n Hn].
  destruct (played_timeline n g Hn) as (_ & Hxs & _).
  destruct (reachable_Inv g Hr) as (Hbx & _ & Hc & Hok & _).
  rewrite Forall_forall in Hok.
  destruct (Hok p Hp) as (Hv & Hg & Hx & Hpass & k & Hk0 & Hk).
  split.
  { rewrite <- (length_map Pipe.x), Hxs. apply pipe_xs_length. }
  rewrite Hbx.
  unfold valid_gap in Hg.
  unfold Rect.top, Pipe.get_upper_rect, Pipe.get_lower_rect.
  cbn [Rect.h Rect.y].
  unfold PIPE_GAP, SCREEN_HEIGHT, PIPE_WIDTH, SCREEN_WIDTH, SPAWN_SPACING
    in *.
  change (150 / 2) with 75.
  split; [exact Hv|]. split; [exact Hg|].
  split; [lia|]. split; [lia|]. split; [lia|].
  split; [|exact Hpass].
  rewrite Hk. Z.div_mod_to_equations. lia.
Qed.

Lemma pipes_stay_in_range_witness :
  reachable (state_at 199) /\
  In (Pipe.mk (-32) 250 (-4) true) (Game.pipes (state_at 199)) /\
  (length (Game.pipes (state_at 199)) <= 2)%nat /\
  Pipe.velocity (Pipe.mk (-32) 250 (-4) true) = -4 /\
  PIPE_GAP <= Pipe.gap_y (Pipe.mk (-32) 250 (-4) true)
    <= SCREEN_HEIGHT - PIPE_GAP /\
  75 <= Rect.h (Pipe.get_upper_rect (Pipe.mk (-32) 250 (-4) true)) /\
  Rect.top (Pipe.get_lower_rect (Pipe.mk (-32) 250 (-4) true))
    <= SCREEN_HEIGHT - 75 /\
  - PIPE_WIDTH <= Pipe.x (Pipe.mk (-32) 250 (-4) true) <= SCREEN_WIDTH /\
  Pipe.x (Pipe.mk (-32) 250 (-4) true) mod 4 = 0 /\
  (Pipe.passed (Pipe.mk (-32) 250 (-4) true) = true <->
   Pipe.x (Pipe.mk (-32) 250 (-4) true) + PIPE_WIDTH
     < Bird.x (Game.bird (state_at 199))).
Proof.
  assert (Hin : In (Pipe.mk (-32) 250 (-4) true) (Game.pipes (state_at 199)))
    by (vm_compute; now left).
  split; [apply state_at_reachable|].
  split; [exact Hin|].
  apply (pipes_stay_in_range (state_at 199) (Pipe.mk (-32) 250 (-4) true)).
  - apply state_at_reachable.
  - exact Hin.
Defined.

(** ** Flight *)

Lemma inject_Z_succ (n : nat) :
  (inject_Z (Z.of_nat (S n)) == inject_Z (Z.of_nat n) + 1)%Q.
Proof.
  rewrite Nat2Z.inj_succ, <- Z.add_1_r, inject_Z_plus. reflexivity.
Qed.

Lemma move_iter_closed_form (b : Bird.t) (n : nat) :
  (Bird.velocity (Nat.iter n Bird.move b)
     == Bird.velocity b + inject_Z (Z.of_nat n) * GRAVITY)%Q /\
  (Bird.y (Nat.iter n Bird.move b)
     == Bird.y b + inject_Z (Z.of_nat n) * Bird.velocity b
        + inject_Z (Z.of_nat n) * (inject_Z (Z.of_nat n) + 1) * (1 # 4))%Q.
Proof.
  induction n as [|n [IHv IHy]].
  - cbn [Nat.iter nat_rect Z.of_nat]. unfold GRAVITY.
    split; [ring|]. unfold inject_Z. ring.
  - rewrite Nat.iter_succ, move_y, move_velocity, IHv, IHy, inject_Z_succ.
    unfold GRAVITY. split; ring.
Qed.

(** ** Without a jump the game ends *)

Lemma run_without_jump (inputs : list (list Event * Z)) (g g' : Game.t) :
  Forall (fun i => no_restart (fst i)) inputs ->
  Game.run g inputs = Some g' ->
  Game.game_over g' = false ->
  Game.game_over g = false /\
  Game.bird g' = Nat.iter (length inputs) Bird.move (Game.bird g).
Proof.
  revert g. induction inputs as [|[events gap_y] rest IH];
    intros g Hn Hrun Hplay; cbn [Game.run] in Hrun.
  - injection Hrun as <-. now split.
  - inversion Hn as [|? ? Hhd Hrest]; subst. cbn [fst] in Hhd.
    destruct (Game.frame g events gap_y) as [g1|] eqn:Hf; [|discriminate].
    destruct (IH g1 Hrest Hrun Hplay) as [H1 Hb].
    destruct (Game.game_over g) eqn:Hg.
    + apply frame_over in Hf; [|exact Hg|exact Hhd]. congruence.
    + split; [reflexivity|].
      rewrite Hb, (frame_without_jump_moves_bird g g1 events gap_y Hg Hhd Hf).
      cbn [length]. now rewrite Nat.iter_succ_r.
Qed.

(** X11.  Gravity wins: from any state the game can be in, 72 frames (or
    more) in which the space bar is not pressed end with the game
    over, whatever else happens in them. *)
Theorem no_jump_ends_game
  (g g' : Game.t) (inputs : list (list Event * Z)) :
  reachable g ->
  Forall (fun i => valid_gap (snd i)) inputs ->
  Forall (fun i => no_restart (fst i)) inputs ->
  (72 <= length inputs)%nat ->
  Game.run g inputs = Some g' ->
  Game.game_over g' = true.
Proof.
  intros Hr Hv Hn Hlen Hrun.
  destruct (Game.game_over g') eqn:Hover; [reflexivity|exfalso].
  destruct (run_without_jump inputs g g' Hn Hrun Hover) as [Hg Hb].
  destruct (reachable_bird_in_range g Hr)
    as ((_ & _ & Hlo & _ & _ & Hplay) & _).
  specialize (Hplay Hg).
  pose proof (run_reachable inputs g g' Hv Hr Hrun) as Hr'.
  destruct (reachable_bird_in_range g' Hr')
    as ((_ & _ & _ & _ & _ & Hplay') & _).
  specialize (Hplay' Hover).
  destruct (move_iter_closed_form (Game.bird g) (length inputs)) as [_ Hy].
  rewrite Hb, Hy in Hplay'.
  assert (HN : (72 <= inject_Z (Z.of_nat (length inputs)))%Q).
  { change 72%Q with (inject_Z 72). rewrite <- Zle_Qle. lia. }
  set (N := inject_Z (Z.of_nat (length inputs))) in *.
  set (v := Bird.velocity (Game.bird g)) in *.
  set (y := Bird.y (Game.bird g)) in *.
  assert (H1 : (0 <= (v + 10) * N)%Q) by nra.
  assert (H2 : (0 <= (N - 72) * (N - 39))%Q) by nra.
  nra.
Qed.

Lemma no_jump_ends_game_witness :
  reachable (state_at 100) /\
  Forall (fun i => valid_gap (snd i)) (idle 72) /\
  Forall (fun i => no_restart (fst i)) (idle 72) /\
  (72 <= length (idle 72))%nat /\
  Game.run (state_at 100) (idle 72)
    = Some (session (script 250 100 ++ idle 72)) /\
  Game.game_over (session (script 250 100 ++ idle 72)) = true.
Proof.
  assert (Hv : Forall (fun i => valid_gap (snd i)) (idle 72)).
  { apply Forall_forall. intros i Hi. apply repeat_spec in Hi. subst i.
    exact valid_gap_300. }
  assert (Hn : Forall (fun i => no_restart (fst i)) (idle 72)).
  { apply Forall_forall. intros i Hi. apply repeat_spec in Hi. subst i.
    intros []. }
  assert (Hrun : Game.run (state_at 100) (idle 72)
                 = Some (session (script 250 100 ++ idle 72)))
    by by_evaluation.
  split; [apply state_at_reachable|].
  split; [exact Hv|]. split; [exact Hn|].
  split; [by_evaluation|].
  split; [exact Hrun|].
  apply (no_jump_ends_game (state_at 100) _ (idle 72)).
  - apply state_at_reachable.
  - exact Hv.
  - exact Hn.
  - by_evaluation.
  - exact Hrun.
Defined.

(** ** Falling in the game (C7) *)

(** C7.  From any state the game can be in whose bird has a positive
    velocity, along any run of frames without a press of the space bar
    that leaves the game on, one more such frame leaves [y] strictly
    greater than it was: the velocity, which grows by [GRAVITY] in the
    frame, is positive before and after it, and [y] grows by the new
    velocity.  The heights concerned are between -1 and 610. *)
Theorem fall_strictly_increases_y
  (g g1 g2 : Game.t) (before : list (list Event * Z))
  (events : list Event) (gap_y : Z) :
  reachable g ->
  Forall (fun i => valid_gap (snd i)) before ->
  Forall (fun i => no_restart (fst i)) before ->
  (0 < Bird.velocity (Game.bird g))%Q ->
  Game.run g before = Some g1 ->
  Game.game_over g1 = false ->
  valid_gap gap_y ->
  no_restart events ->
  Game.frame g1 events gap_y = Some g2 ->
  (Bird.y (Game.bird g1) < Bird.y (Game.bird g2))%Q /\
  (0 < Bird.velocity (Game.bird g1))%Q /\
  (Bird.velocity (Game.bird g2)
     == Bird.velocity (Game.bird g1) + GRAVITY)%Q /\
  (Bird.y (Game.bird g2)
     == Bird.y (Game.bird g1) + Bird.velocity (Game.bird g2))%Q /\
  (-1 < Bird.y (Game.bird g1) < 581)%Q /\
  (Bird.y (Game.bird g2) < 610)%Q.
Proof.
  intros Hr Hv Hn Hpos Hrun Hplay Hgap Hne Hf.
  destruct (run_without_jump before g g1 Hn Hrun Hplay) as [_ Hb].
  pose proof (fall_velocity_positive (Game.bird g) (length before) Hpos)
    as Hpos1.
  rewrite <- Hb in Hpos1.
  pose proof (run_reachable before g g1 Hv Hr Hrun) as Hr1.
  pose proof (reachable_frame g1 g2 events gap_y Hr1 Hgap Hf) as Hr2.
  destruct (reachable_bird_in_range g1 Hr1)
    as ((_ & _ & _ & _ & _ & Hin1) & _).
  destruct (reachable_bird_in_range g2 Hr2)
    as ((_ & _ & _ & _ & [_ Hin2] & _) & _).
  rewrite (frame_without_jump_moves_bird g1 g2 events gap_y Hplay Hne Hf)
    in *.
  pose proof (move_velocity (Game.bird g1)) as Hmv.
  pose proof (move_y (Game.bird g1)) as Hmy.
  unfold GRAVITY in *.
  split; [lra|]. split; [exact Hpos1|]. split; [exact Hmv|].
  split; [exact Hmy|]. split; [now apply Hin1 | exact Hin2].
Qed.

Lemma fall_strictly_increases_y_witness :
  reachable (idle_at 1) /\
  Forall (fun i => valid_gap (snd i)) (idle 5) /\
  Forall (fun i => no_restart (fst i)) (idle 5) /\
  (0 < Bird.velocity (Game.bird (idle_at 1)))%Q /\
  Game.run (idle_at 1) (idle 5) = Some (idle_at 6) /\
  Game.game_over (idle_at 6) = false /\
  valid_gap 300 /\
  no_restart [] /\
  Game.frame (idle_at 6) [] 300 = Some (idle_at 7) /\
  (Bird.y (Game.bird (idle_at 6)) < Bird.y (Game.bird (idle_at 7)))%Q /\
  (0 < Bird.velocity (Game.bird (idle_at 6)))%Q /\
  (Bird.velocity (Game.bird (idle_at 7))
     == Bird.velocity (Game.bird (idle_at 6)) + GRAVITY)%Q /\
  (Bird.y (Game.bird (idle_at 7))
     == Bird.y (Game.bird (idle_at 6)) + Bird.velocity (Game.bird (idle_at 7)))%Q /\
  (-1 < Bird.y (Game.bird (idle_at 6)) < 581)%Q /\
  (Bird.y (Game.bird (idle_at 7)) < 610)%Q.
Proof.
  assert (Hv : Forall (fun i => valid_gap (snd i)) (idle 5)).
  { apply Forall_forall. intros i Hi. apply repeat_spec in Hi. subst i.
    exact valid_gap_300. }
  assert (Hn : Forall (fun i => no_restart (fst i)) (idle 5)).
  { apply Forall_forall. intros i Hi. apply repeat_spec in Hi. subst i.
    intros []. }
  assert (Hrun : Game.run (idle_at 1) (idle 5) = Some (idle_at 6))
    by by_evaluation.
  assert (Hf : Game.frame (idle_at 6) [] 300 = Some (idle_at 7))
    by by_evaluation.
  split; [apply idle_at_reachable|].
  split; [exact Hv|]. split; [exact Hn|].
  split; [reflexivity|]. split; [exact Hrun|].
  split; [by_evaluation|]. split; [exact valid_gap_300|].
  split; [intros []|]. split; [exact Hf|].
  apply (fall_strictly_increases_y (idle_at 1) (idle_at 6) (idle_at 7)
           (idle 5) [] 300).
  - apply idle_at_reachable.
  - exact Hv.
  - exact Hn.
  - reflexivity.
  - exact Hrun.
  - by_evaluation.
  - exact valid_gap_300.
  - intros [].
  - exact Hf.
Defined.

(** ** Flight in the game *)

(** X9.  In a game, [n] played frames in a row without a press of the
    space bar add [n] times [GRAVITY] to the bird's velocity and
    [n * velocity + n * (n + 1) / 4] to its [y], and leave its [x] and
    size as they are. *)
Theorem moves_in_closed_form
  (g g' : Game.t) (inputs : list (list Event * Z)) :
  reachable g ->
  Forall (fun i => valid_gap (snd i)) inputs ->
  Forall (fun i => no_restart (fst i)) inputs ->
  Game.run g inputs = Some g' ->
  Game.game_over g' = false ->
  (Bird.velocity (Game.bird g')
     == Bird.velocity (Game.bird g)
        + inject_Z (Z.of_nat (length inputs)) * GRAVITY)%Q /\
  (Bird.y (Game.bird g')
     == Bird.y (Game.bird g)
        + inject_Z (Z.of_nat (length inputs)) * Bird.velocity (Game.bird g)
        + inject_Z (Z.of_nat (length inputs))
          * (inject_Z (Z.of_nat (length inputs)) + 1) * (1 # 4))%Q /\
  Bird.x (Game.bird g') = Bird.x (Game.bird g) /\
  Bird.size (Game.bird g') = Bird.size (Game.bird g).
Proof.
  intros Hr Hv Hn Hrun Hplay.
  destruct (run_without_jump inputs g g' Hn Hrun Hplay) as [_ Hb].
  destruct (move_iter_closed_form (Game.bird g) (length inputs)) as [Hvel Hy].
  rewrite <- Hb in Hvel, Hy.
  pose proof (run_reachable inputs g g' Hv Hr Hrun) as Hr'.
  destruct (reachable_Inv g Hr) as (Hx & Hs & _).
  destruct (reachable_Inv g' Hr') as (Hx' & Hs' & _).
  split; [exact Hvel|]. split; [exact Hy|]. split; congruence.
Qed.

Lemma moves_in_closed_form_witness :
  reachable (idle_at 1) /\
  Forall (fun i => valid_gap (snd i)) (idle 5) /\
  Forall (fun i => no_restart (fst i)) (idle 5) /\
  Game.run (idle_at 1) (idle 5) = Some (idle_at 6) /\
  Game.game_over (idle_at 6) = false /\
  (Bird.velocity (Game.bird (idle_at 6))
     == Bird.velocity (Game.bird (idle_at 1))
        + inject_Z (Z.of_nat (length (idle 5))) * GRAVITY)%Q /\
  (Bird.y (Game.bird (idle_at 6))
     == Bird.y (Game.bird (idle_at 1))
        + inject_Z (Z.of_nat (length (idle 5)))
          * Bird.velocity (Game.bird (idle_at 1))
        + inject_Z (Z.of_nat (length (idle 5)))
          * (inject_Z (Z.of_nat (length (idle 5))) + 1) * (1 # 4))%Q /\
  Bird.x (Game.bird (idle_at 6)) = Bird.x (Game.bird (idle_at 1)) /\
  Bird.size (Game.bird (idle_at 6)) = Bird.size (Game.bird (idle_at 1)).
Proof.
  assert (Hv : Forall (fun i => valid_gap (snd i)) (idle 5)).
  { apply Forall_forall. intros i Hi. apply repeat_spec in Hi. subst i.
    exact valid_gap_300. }
  assert (Hn : Forall (fun i => no_restart (fst i)) (idle 5)).
  { apply Forall_forall. intros i Hi. apply repeat_spec in Hi. subst i.
    intros []. }
  assert (Hrun : Game.run (idle_at 1) (idle 5) = Some (idle_at 6))
    by by_evaluation.
  split; [apply idle_at_reachable|].
  split; [exact Hv|]. split; [exact Hn|]. split; [exact Hrun|].
  split; [by_evaluation|].
  apply (moves_in_closed_form (idle_at 1) (idle_at 6) (idle 5)).
  - apply idle_at_reachable.
  - exact Hv.
  - exact Hn.
  - exact Hrun.
  - by_evaluation.
Defined.

Lemma jump_flight (b : Bird.t) (n : nat) :
  (Bird.y (Nat.iter n Bird.move (Bird.jump b))
     == Bird.y b - 95
        + (inject_Z (Z.of_nat n) - 19) * (inject_Z (Z.of_nat n) - 20)
          * (1 # 4))%Q /\
  (Bird.velocity (Nat.iter n Bird.move (Bird.jump b))
     == inject_Z (Z.of_nat n) * (1 # 2) - 10)%Q.
Proof.
  destruct (move_iter_closed_form (Bird.jump b) n) as [Hv Hy].
  rewrite Hv, Hy. unfold Bird.jump; cbn [Bird.y Bird.velocity].
  unfold JUMP_STRENGTH, GRAVITY.
  set (N := inject_Z (Z.of_nat n)). unfold inject_Z. split; ring.
Qed.

(** X10.  A jump never lifts the bird more than 95 units.  In a game
    that is on, after a frame with a press of the space bar and any
    number of frames without one that leave the game on, [y] is at
    least what it was before the jump minus 95; it is exactly that
    after 19 and after 20 frames (the jump frame counted); and after
    39 frames the bird is back at the height it jumped from, falling
    at 9.5 a frame. *)
Theorem jump_lifts_95
  (g g' : Game.t) (events : list Event) (gap_y : Z)
  (rest : list (list Event * Z)) :
  reachable g ->
  Game.game_over g = false ->
  existsb is_space events = true ->
  valid_gap gap_y ->
  Forall (fun i => valid_gap (snd i)) rest ->
  Forall (fun i => no_restart (fst i)) rest ->
  Game.run g ((events, gap_y) :: rest) = Some g' ->
  Game.game_over g' = false ->
  (Bird.y (Game.bird g) - 95 <= Bird.y (Game.bird g'))%Q /\
  (length rest = 18%nat \/ length rest = 19%nat ->
   (Bird.y (Game.bird g') == Bird.y (Game.bird g) - 95)%Q) /\
  (length rest = 38%nat ->
   (Bird.y (Game.bird g') == Bird.y (Game.bird g))%Q /\
   (Bird.velocity (Game.bird g') == 19 # 2)%Q).
Proof.
  intros Hr Hplay Hsp Hgap Hv Hn Hrun Hplay'.
  cbn [Game.run] in Hrun.
  destruct (Game.frame g events gap_y) as [gA|] eqn:Hf; [|discriminate].
  destruct (run_without_jump rest gA g' Hn Hrun Hplay') as [HplayA Hb].
  unfold Game.frame in Hf.
  destruct (Game._handle_events g events) as [g1|] eqn:He; [|discriminate].
  assert (Hq : ~ In QUIT events).
  { intro H. apply (handle_events_None_iff events g) in H. congruence. }
  rewrite (handle_events_playing_eq events g Hplay Hq), Hsp in He.
  assert (Hg1 : g1 = jumped g) by congruence. subst g1.
  assert (HgA : gA = Game.update gap_y (jumped g)) by congruence.
  assert (HbA : Game.bird gA = Bird.move (Bird.jump (Game.bird g))).
  { rewrite HgA, update_playing by exact Hplay.
    rewrite check_collisions_eq, before_check_eq. reflexivity. }
  rewrite HbA, <- Nat.iter_succ_r in Hb.
  destruct (jump_flight (Game.bird g) (S (length rest))) as [Hy Hvel].
  rewrite <- Hb in Hy, Hvel.
  split; [|split].
  - rewrite Hy.
    set (k := Z.of_nat (S (length rest))).
    assert (Hk : (0 <= (inject_Z k - 19) * (inject_Z k - 20))%Q).
    { unfold Qle, Qmult, Qminus, Qplus, Qopp, inject_Z. cbn [Qnum Qden].
      destruct (Z.le_gt_cases k 19); nia. }
    set (N := inject_Z k) in *. lra.
  - intros [Hl|Hl]; rewrite Hy, Hl; unfold inject_Z;
      cbn [Z.of_nat Pos.of_succ_nat Pos.succ]; ring.
  - intro Hl. rewrite Hy, Hvel, Hl. unfold inject_Z.
    cbn [Z.of_nat Pos.of_succ_nat Pos.succ]. split; [ring|reflexivity].
Qed.

Lemma jump_lifts_95_witness :
  reachable (state_at 39) /\
  Game.game_over (state_at 39) = false /\
  existsb is_space [KEYDOWN K_SPACE] = true /\
  valid_gap 250 /\
  Forall (fun i => valid_gap (snd i)) (idle 19) /\
  Forall (fun i => no_restart (fst i)) (idle 19) /\
  Game.run (state_at 39) (([KEYDOWN K_SPACE], 250) :: idle 19)
    = Some (state_at 59) /\
  Game.game_over (state_at 59) = false /\
  (Bird.y (Game.bird (state_at 39)) - 95
     <= Bird.y (Game.bird (state_at 59)))%Q /\
  (length (idle 19) = 18%nat \/
   length (idle 19) = 19%nat ->
   (Bird.y (Game.bird (state_at 59))
      == Bird.y (Game.bird (state_at 39)) - 95)%Q) /\
  (length (idle 19) = 38%nat ->
   (Bird.y (Game.bird (state_at 59)) == Bird.y (Game.bird (state_at 39)))%Q /\
   (Bird.velocity (Game.bird (state_at 59)) == 19 # 2)%Q).
Proof.
  assert (Hv : Forall (fun i => valid_gap (snd i)) (idle 19)).
  { apply Forall_forall. intros i Hi. apply repeat_spec in Hi. subst i.
    exact valid_gap_300. }
  assert (Hn : Forall (fun i => no_restart (fst i)) (idle 19)).
  { apply Forall_forall. intros i Hi. apply repeat_spec in Hi. subst i.
    intros []. }
  assert (Hrun : Game.run (state_at 39)
                   (([KEYDOWN K_SPACE], 250) :: idle 19)
                 = Some (state_at 59)) by by_evaluation.
  split; [apply state_at_reachable|].
  split; [by_evaluation|]. split; [reflexivity|].
  split; [exact valid_gap_250|].
  split; [exact Hv|]. split; [exact Hn|]. split; [exact Hrun|].
  split; [by_evaluation|].
  apply (jump_lifts_95 (state_at 39) (state_at 59) [KEYDOWN K_SPACE] 250
           (idle 19)).
  - apply state_at_reachable.
  - by_evaluation.
  - reflexivity.
  - exact valid_gap_250.
  - exact Hv.
  - exact Hn.
  - exact Hrun.
  - by_evaluation.
Defined.

(** ** What is drawn and what collides *)

Lemma quot_plus_10 (a B : Z) :
  0 < B ->
  a ÷ B + 9 <= (a * 2 + 20 * B) ÷ (B * 2) <= a ÷ B + 10.
Proof.
  intro HB.
  pose proof (Z.quot_rem' a B) as Ha.
  pose proof (Z.quot_rem' (a * 2 + 20 * B) (B * 2)) as Hs.
  destruct (Z.lt_ge_cases a 0) as [Hneg|Hpos].
  - pose proof (Z.rem_bound_pos_neg a B) as Hb.
    destruct (Z.lt_ge_cases (a * 2 + 20 * B) 0) as [Hn2|Hp2].
    + pose proof (Z.rem_bound_pos_neg (a * 2 + 20 * B) (B * 2)) as Hb2.
      nia.
    + pose proof (Z.rem_bound_pos_pos (a * 2 + 20 * B) (B * 2)) as Hb2.
      nia.
  - pose proof (Z.rem_bound_pos_pos a B) as Hb.
    pose proof (Z.rem_bound_pos_pos (a * 2 + 20 * B) (B * 2)) as Hb2.
    nia.
Qed.

Lemma int_of_float_plus_10 (q : Q) :
  int_of_float q + 9 <= int_of_float (q + inject_Z 20 / 2)
    <= int_of_float q + 10.
Proof.
  destruct q as [a b].
  unfold int_of_float, Qplus, Qdiv, Qmult, Qinv, inject_Z.
  cbn [Qnum Qden]. rewrite !Pos2Z.inj_mul.
  replace (a * (1 * 2) + 20 * 1 * Z.pos b) with (a * 2 + 20 * Z.pos b)
    by lia.
  replace (Z.pos b * (1 * 2)) with (Z.pos b * 2) by lia.
  apply quot_plus_10. lia.
Qed.

Lemma int_of_float_x_plus_10 (x : Z) :
  int_of_float (inject_Z x + inject_Z 20 / 2) = x + 10.
Proof.
  unfold int_of_float, Qplus, Qdiv, Qmult, Qinv, inject_Z.
  cbn [Qnum Qden].
  change (Z.pos (1 * 2)) with 2. change (Z.pos (1 * (1 * 2))) with 2.
  replace (x * 2 + 20 * 1 * 1) with ((x + 10) * 2) by lia.
  apply Z.quot_mul. discriminate.
Qed.

(** X12.  In every state the game can be in, [Bird.draw] paints a disc of
    radius 20 around the middle of the collision rectangle, which is 20
    wide and high, and outlines that rectangle: every point of the
    rectangle is strictly inside the disc, so the bird that is seen is
    larger than the bird that collides. *)
Theorem hitbox_inside_disc (g : Game.t) (px py : Z) :
  reachable g ->
  exists cx cy,
    Bird_draw (Game.bird g) =
      [draw_circle YELLOW (cx, cy) 20;
       draw_rect BLACK (Bird.get_rect (Game.bird g)) 1] /\
    Rect.w (Bird.get_rect (Game.bird g)) = 20 /\
    Rect.h (Bird.get_rect (Game.bird g)) = 20 /\
    cx = Rect.left (Bird.get_rect (Game.bird g)) + 10 /\
    Rect.top (Bird.get_rect (Game.bird g)) + 9 <= cy
      <= Rect.top (Bird.get_rect (Game.bird g)) + 10 /\
    (Rect.left (Bird.get_rect (Game.bird g)) <= px
       <= Rect.right (Bird.get_rect (Game.bird g)) ->
     Rect.top (Bird.get_rect (Game.bird g)) <= py
       <= Rect.bottom (Bird.get_rect (Game.bird g)) ->
     (px - cx) * (px - cx) + (py - cy) * (py - cy) < 20 * 20).
Proof.
  intro Hr. destruct (reachable_Inv g Hr) as (_ & Hs & _).
  set (b := Game.bird g) in *.
  exists (int_of_float (inject_Z (Bird.x b) + inject_Z (Bird.size b) / 2)),
         (int_of_float (Bird.y b + inject_Z (Bird.size b) / 2)).
  unfold Bird_draw. rewrite Hs.
  pose proof (int_of_float_plus_10 (Bird.y b)) as Hy.
  rewrite int_of_float_x_plus_10.
  unfold Rect.left, Rect.right, Rect.top, Rect.bottom, Bird.get_rect.
  cbn [Rect.x Rect.y Rect.w Rect.h]. rewrite Hs.
  split; [reflexivity|]. split; [reflexivity|]. split; [reflexivity|].
  split; [reflexivity|]. split; [exact Hy|].
  intros Hpx Hpy.
  set (cy := int_of_float (Bird.y b + inject_Z 20 / 2)) in *.
  set (ty := int_of_float (Bird.y b)) in *.
  nia.
Qed.

Lemma hitbox_inside_disc_witness :
  reachable (state_at 100) /\
  exists cx cy,
    Bird_draw (Game.bird (state_at 100)) =
      [draw_circle YELLOW (cx, cy) 20;
       draw_rect BLACK (Bird.get_rect (Game.bird (state_at 100))) 1] /\
    Rect.w (Bird.get_rect (Game.bird (state_at 100))) = 20 /\
    Rect.h (Bird.get_rect (Game.bird (state_at 100))) = 20 /\
    cx = Rect.left (Bird.get_rect (Game.bird (state_at 100))) + 10 /\
    Rect.top (Bird.get_rect (Game.bird (state_at 100))) + 9 <= cy
      <= Rect.top (Bird.get_rect (Game.bird (state_at 100))) + 10 /\
    (Rect.left (Bird.get_rect (Game.bird (state_at 100))) <= 70
       <= Rect.right (Bird.get_rect (Game.bird (state_at 100))) ->
     Rect.top (Bird.get_rect (Game.bird (state_at 100))) <= 230
       <= Rect.bottom (Bird.get_rect (Game.bird (state_at 100))) ->
     (70 - cx) * (70 - cx) + (230 - cy) * (230 - cy) < 20 * 20).
Proof.
  split; [apply state_at_reachable|].
  apply (hitbox_inside_disc (state_at 100) 70 230).
  apply state_at_reachable.
Defined.

(** ** Pipes behind the bird, and below the screen *)

(** X13.  A pipe is marked as passed exactly when it is wholly behind the
    bird: its right edge at or left of the left edge of the bird's
    rectangle.  A marked pipe can no longer be hit, and a pipe that is
    not marked still has its right edge at least 2 units right of the
    bird's left edge. *)
Theorem passed_pipes_are_behind (g : Game.t) (p : Pipe.t) :
  reachable g -> In p (Game.pipes g) ->
  (Pipe.passed p = true <->
   Rect.right (Pipe.get_upper_rect p)
     <= Rect.left (Bird.get_rect (Game.bird g))) /\
  (Pipe.passed p = true ->
   hits (Bird.get_rect (Game.bird g)) p = false) /\
  (Pipe.passed p = false ->
   Rect.left (Bird.get_rect (Game.bird g)) + 2
     <= Rect.right (Pipe.get_upper_rect p)).
Proof.
  intros Hr Hp.
  destruct (reachable_Inv g Hr) as (Hbx & Hsize & _ & Hok & _).
  rewrite Forall_forall in Hok.
  destruct (Hok p Hp) as (_ & Hg & _ & Hpass & k & _ & Hk).
  assert (Hmod : Pipe.x p mod 4 = 0).
  { rewrite Hk. unfold SCREEN_WIDTH, SPAWN_SPACING.
    Z.div_mod_to_equations. lia. }
  assert (Hiff : Pipe.passed p = true <-> Pipe.x p + 80 <= 50).
  { rewrite Hpass. unfold PIPE_WIDTH.
    split; [lia|]. intro H. Z.div_mod_to_equations. lia. }
  unfold Rect.right, Rect.left, Pipe.get_upper_rect, Bird.get_rect.
  cbn [Rect.x Rect.w]. rewrite Hbx. unfold PIPE_WIDTH.
  split; [exact Hiff|]. split.
  - intro H. apply Hiff in H.
    unfold hits. apply orb_false_iff.
    unfold Rect.colliderect, Pipe.get_upper_rect, Pipe.get_lower_rect,
      Bird.get_rect.
    cbn [Rect.x Rect.y Rect.w Rect.h]. rewrite Hsize.
    unfold PIPE_WIDTH.
    assert (E : (Z.max 50 (50 + 20) >? Z.min (Pipe.x p) (Pipe.x p + 80))
                = true) by (apply Z.gtb_gt; lia).
    assert (F : (Z.min 50 (50 + 20) <? Z.max (Pipe.x p) (Pipe.x p + 80))
                = false) by (apply Z.ltb_ge; lia).
    rewrite F. cbn [andb].
    split; now destruct (_ || _).
  - intro H.
    destruct (Z.le_gt_cases (Pipe.x p + 80) 50) as [Hle|Hgt];
      [apply Hiff in Hle; congruence|].
    Z.div_mod_to_equations. lia.
Qed.

Lemma passed_pipes_are_behind_witness :
  reachable (state_at 199) /\
  In (Pipe.mk (-32) 250 (-4) true) (Game.pipes (state_at 199)) /\
  (Pipe.passed (Pipe.mk (-32) 250 (-4) true) = true <->
   Rect.right (Pipe.get_upper_rect (Pipe.mk (-32) 250 (-4) true))
     <= Rect.left (Bird.get_rect (Game.bird (state_at 199)))) /\
  (Pipe.passed (Pipe.mk (-32) 250 (-4) true) = true ->
   hits (Bird.get_rect (Game.bird (state_at 199)))
     (Pipe.mk (-32) 250 (-4) true) = false) /\
  (Pipe.passed (Pipe.mk (-32) 250 (-4) true) = false ->
   Rect.left (Bird.get_rect (Game.bird (state_at 199))) + 2
     <= Rect.right (Pipe.get_upper_rect (Pipe.mk (-32) 250 (-4) true))).
Proof.
  assert (Hin : In (Pipe.mk (-32) 250 (-4) true) (Game.pipes (state_at 199)))
    by (vm_compute; now left).
  split; [apply state_at_reachable|].
  split; [exact Hin|].
  apply (passed_pipes_are_behind (state_at 199)
           (Pipe.mk (-32) 250 (-4) true)).
  - apply state_at_reachable.
  - exact Hin.
Defined.

(** X14.  The lower rectangle of a pipe reaches [gap_y + PIPE_GAP // 2]
    below the screen.  For a bird whose rectangle does not reach below
    the screen this changes nothing: the collision test gives what it
    gives on the rectangle cut off at [SCREEN_HEIGHT]; and a bird whose
    rectangle does reach below the screen has lost anyway. *)
Theorem lower_rect_excess_is_harmless (g : Game.t) (p : Pipe.t) :
  reachable g -> In p (Game.pipes g) ->
  (Rect.bottom (Bird.get_rect (Game.bird g)) <= SCREEN_HEIGHT ->
   Rect.colliderect (Bird.get_rect (Game.bird g)) (Pipe.get_lower_rect p) =
   Rect.colliderect (Bird.get_rect (Game.bird g))
     (Rect.mk (Pipe.x p) (Pipe.gap_y p + PIPE_GAP / 2) PIPE_WIDTH
        (SCREEN_HEIGHT - (Pipe.gap_y p + PIPE_GAP / 2)))) /\
  (SCREEN_HEIGHT < Rect.bottom (Bird.get_rect (Game.bird g)) ->
   Game.game_over g = true).
Proof.
  intros Hr Hp.
  destruct (reachable_Inv g Hr) as (_ & Hsize & _ & Hok & _).
  rewrite Forall_forall in Hok.
  split.
  - intro Hb.
    exact (lower_rect_clipped (Game.bird g) _ p Hsize (Hok p Hp) Hb).
  - intro Hb. rewrite (reachable_flag_is_scene g Hr).
    unfold scene_collides.
    apply orb_true_iff. right. apply Z.gtb_gt. lia.
Qed.

Lemma lower_rect_excess_is_harmless_witness :
  reachable (state_at 180) /\
  In (Pipe.mk 44 250 (-4) false) (Game.pipes (state_at 180)) /\
  (Rect.bottom (Bird.get_rect (Game.bird (state_at 180))) <= SCREEN_HEIGHT ->
   Rect.colliderect (Bird.get_rect (Game.bird (state_at 180)))
     (Pipe.get_lower_rect (Pipe.mk 44 250 (-4) false)) =
   Rect.colliderect (Bird.get_rect (Game.bird (state_at 180)))
     (Rect.mk (Pipe.x (Pipe.mk 44 250 (-4) false))
        (Pipe.gap_y (Pipe.mk 44 250 (-4) false) + PIPE_GAP / 2) PIPE_WIDTH
        (SCREEN_HEIGHT
         - (Pipe.gap_y (Pipe.mk 44 250 (-4) false) + PIPE_GAP / 2)))) /\
  (SCREEN_HEIGHT < Rect.bottom (Bird.get_rect (Game.bird (state_at 180))) ->
   Game.game_over (state_at 180) = true).
Proof.
  assert (Hin : In (Pipe.mk 44 250 (-4) false) (Game.pipes (state_at 180)))
    by (vm_compute; now left).
  split; [apply state_at_reachable|].
  split; [exact Hin|].
  apply (lower_rect_excess_is_harmless (state_at 180)
           (Pipe.mk 44 250 (-4) false)).
  - apply state_at_reachable.
  - exact Hin.
Defined.

(** ** Removal comes after scoring: the account of the score (C9) *)

Lemma marked_map_move (ps : list Pipe.t) :
  marked (map Pipe.move ps) = marked ps.
Proof.
  unfold marked. f_equal.
  induction ps as [|p rest IH]; [reflexivity|].
  cbn [map filter]. unfold Pipe.move at 1; cbn [Pipe.passed].
  destruct (Pipe.passed p); cbn [length]; now rewrite IH.
Qed.

Lemma marked_app (l1 l2 : list Pipe.t) :
  marked (l1 ++ l2) = marked l1 + marked l2.
Proof.
  unfold marked. rewrite filter_app, length_app. lia.
Qed.

(** The scoring loop marks what it counts. *)
Lemma marked_map_mark (bird_x : Z) (ps : list Pipe.t) :
  marked (map (mark bird_x) ps) =
  marked ps + Z.of_nat (length (filter (crossing bird_x) ps)).
Proof.
  unfold marked.
  induction ps as [|p rest IH]; [reflexivity|].
  cbn [map filter]. unfold mark at 1.
  destruct (crossing bird_x p) eqn:Hc.
  - assert (Hp : Pipe.passed p = false).
    { unfold crossing in Hc. apply andb_true_iff in Hc as [_ Hc].
      now apply negb_true_iff in Hc. }
    rewrite Hp. cbn [Pipe.set_passed Pipe.passed length]. lia.
  - destruct (Pipe.passed p); cbn [length]; lia.
Qed.

(** Dropping pipes that are all marked takes as many from the marked
    ones as from the list. *)
Lemma marked_prune (ps : list Pipe.t) :
  (forall p, In p ps -> Pipe.off_screen p = true -> Pipe.passed p = true) ->
  marked (Game.prune ps) =
  marked ps - (Z.of_nat (length ps) - Z.of_nat (length (Game.prune ps))).
Proof.
  unfold marked, Game.prune. intro H.
  induction ps as [|p rest IH]; [reflexivity|].
  assert (IH' := IH (fun q Hq => H q (or_intror Hq))).
  cbn [filter].
  destruct (Pipe.off_screen p) eqn:Hoff; cbn [negb].
  - rewrite (H p (or_introl eq_refl) Hoff). cbn [length]. lia.
  - cbn [filter]. destruct (Pipe.passed p); cbn [length]; lia.
Qed.

Lemma prune_shortens (ps : list Pipe.t) (p : Pipe.t) :
  In p ps -> ~ In p (Game.prune ps) ->
  (length (Game.prune ps) < length ps)%nat.
Proof.
  unfold Game.prune. intros Hin Hout.
  induction ps as [|a rest IH]; [destruct Hin|].
  cbn [filter] in *.
  pose proof (filter_length_le (fun pipe => negb (Pipe.off_screen pipe)) rest)
    as Hle.
  destruct (negb (Pipe.off_screen a)) eqn:Ha; cbn [length] in *; [|lia].
  destruct Hin as [->|Hin]; [exfalso; apply Hout; now left|].
  assert (length (filter (fun pipe => negb (Pipe.off_screen pipe)) rest)
          < length rest)%nat; [|lia].
  apply IH; [exact Hin|]. intro H. apply Hout. now right.
Qed.

(** In a state the game can be in, what the removal pass of a played
    frame drops is marked. *)
Lemma removed_are_marked (gap_y : Z) (g : Game.t) (p : Pipe.t) :
  Inv g ->
  In p (Game.pipes (Game.spawn gap_y (Game.move_all g))) ->
  Pipe.off_screen p = true ->
  (exists q, In q (Game.pipes g) /\ p = Pipe.move q /\ Pipe.passed q = true) /\
  Pipe.passed p = true.
Proof.
  intros (_ & _ & _ & Hok & _) Hin Hoff.
  rewrite Forall_forall in Hok.
  apply off_screen_iff in Hoff.
  assert (Hcases : In p (map Pipe.move (Game.pipes g)) \/
                   p = Pipe.init SCREEN_WIDTH gap_y).
  { unfold Game.spawn, Game.move_all in Hin.
    cbn [Game.pipes Game.pipe_spawn_counter] in Hin.
    destruct (Game.pipe_spawn_counter g + 1 >? 90);
      cbn [Game.pipes] in Hin; [|now left].
    apply in_app_or in Hin as [Hin|[<-|[]]]; [now left | now right]. }
  destruct Hcases as [Hm| ->].
  - apply in_map_iff in Hm as [q [<- Hq]].
    destruct (Hok q Hq) as (Hv & _ & _ & Hp & _).
    unfold Pipe.move in Hoff |- *; cbn [Pipe.x Pipe.passed] in Hoff |- *.
    rewrite Hv in Hoff. unfold PIPE_WIDTH in *.
    assert (Hpq : Pipe.passed q = true) by (apply Hp; lia).
    split; [|exact Hpq]. exists q. now repeat split.
  - unfold Pipe.init in Hoff; cbn [Pipe.x] in Hoff.
    unfold SCREEN_WIDTH, PIPE_WIDTH in Hoff. lia.
Qed.

Lemma marked_spawn_move_all (gap_y : Z) (g : Game.t) :
  marked (Game.pipes (Game.spawn gap_y (Game.move_all g)))
  = marked (Game.pipes g).
Proof.
  unfold Game.spawn, Game.move_all.
  cbn [Game.pipes Game.pipe_spawn_counter].
  destruct (Game.pipe_spawn_counter g + 1 >? 90); cbn [Game.pipes].
  - rewrite marked_app, marked_map_move. unfold marked, Pipe.init.
    cbn [filter Pipe.passed length]. lia.
  - apply marked_map_move.
Qed.

(** The account of the score is kept by a played frame: the score is
    the number of pipes dropped plus the number of marked pipes in the
    list. *)
Lemma account_update (gap_y : Z) (g : Game.t) (acc : Z) :
  Inv g -> Game.game_over g = false ->
  Game.score g = acc + marked (Game.pipes g) ->
  Game.score (Game.update gap_y g)
  = acc + removed_in_frame gap_y g + marked (Game.pipes (Game.update gap_y g)).
Proof.
  intros HI Hplay Hacc.
  rewrite update_playing by exact Hplay.
  rewrite check_collisions_eq, before_check_eq.
  cbn [Game.with_game_over Game.score Game.pipes].
  rewrite marked_map_mark. fold (visited gap_y g).
  unfold visited, removed_in_frame.
  rewrite marked_prune
    by (intros p Hp Hoff; now apply (removed_are_marked gap_y g p HI Hp)).
  rewrite marked_spawn_move_all. cbn [Bird.move Bird.x]. lia.
Qed.

Lemma account_run (inputs : list (list Event * Z)) (g g' : Game.t) (acc : Z) :
  Forall (fun i => valid_gap (snd i)) inputs ->
  reachable g ->
  Game.score g = acc + marked (Game.pipes g) ->
  Game.run g inputs = Some g' ->
  Game.score g' = removed_so_far g acc inputs + marked (Game.pipes g').
Proof.
  revert g acc. induction inputs as [|[events gap_y] rest IH];
    intros g acc Hv Hr Hacc Hrun; cbn [Game.run removed_so_far] in *.
  - now injection Hrun as <-.
  - inversion Hv as [|? ? Hgap Hrest]; subst. cbn [snd] in Hgap.
    destruct (Game.frame g events gap_y) as [gA|] eqn:Hf; [|discriminate].
    pose proof (reachable_frame g gA events gap_y Hr Hgap Hf) as HrA.
    unfold Game.frame in Hf.
    destruct (Game._handle_events g events) as [g1|] eqn:He; [|discriminate].
    assert (HgA : gA = Game.update gap_y g1) by congruence. subst gA.
    pose proof (Inv_handle_events events g g1 (reachable_Inv g Hr) He) as HI1.
    destruct (Game.game_over g1) eqn:Hg1.
    + apply IH; [exact Hrest | exact HrA | | exact Hrun].
      rewrite update_over by exact Hg1.
      destruct (handle_events_cases events g g1 He)
        as [[_ [->| ->]] | [_ [->|[->| ->]]]];
        try exact Hacc; discriminate.
    + apply IH; [exact Hrest | exact HrA | | exact Hrun].
      apply account_update; [exact HI1 | exact Hg1 |].
      destruct (handle_events_cases events g g1 He)
        as [[Hg [->| ->]] | [Hg [->|[->| ->]]]]; rewrite Hg;
        try exact Hacc; try reflexivity.
      congruence.
Qed.

Lemma removed_so_far_app
  (inputs rest : list (list Event * Z)) (g g' : Game.t) (acc : Z) :
  Game.run g inputs = Some g' ->
  removed_so_far g acc (inputs ++ rest)
  = removed_so_far g' (removed_so_far g acc inputs) rest.
Proof.
  revert g acc. induction inputs as [|[events gap_y] more IH];
    intros g acc Hrun; cbn [Game.run removed_so_far app] in *.
  - now injection Hrun as <-.
  - unfold Game.frame in Hrun.
    destruct (Game._handle_events g events) as [g1|]; [|discriminate].
    destruct (Game.game_over g1); now apply IH.
Qed.

Lemma run_snoc
  (inputs : list (list Event * Z)) (g g' : Game.t)
  (events : list Event) (gap_y : Z) :
  Game.run g inputs = Some g' ->
  Game.run g (inputs ++ [(events, gap_y)]) = Game.frame g' events gap_y.
Proof.
  revert g. induction inputs as [|[ev gap] more IH];
    intros g Hrun; cbn [Game.run app] in *.
  - injection Hrun as <-. now destruct (Game.frame g events gap_y).
  - destruct (Game.frame g ev gap); [now apply IH | discriminate].
Qed.

(** C9.  In a game played from the start, take a played frame and a pipe
    that is in the list when the frame begins and that the removal
    pass of the frame (the list comprehension of [_manage_pipes]) does
    not keep.  The pipe was already marked as passed when the frame
    began, its right edge was already left of the bird then, and the
    scoring loop would not have counted it in this frame.  Its score
    increment is in the score: before the frame and after it, the score
    is the number of pipes removed so far in the game plus the number
    of marked pipes in the list, the frame adding what it removes (this
    pipe among them) to the first number.  Whenever a pipe is
    off-screen its right edge is also left of the bird's [x]; and in
    the life of a pipe the frame that removes it comes more than 108
    played frames after its spawn, 108 being the frame that marks and
    counts it. *)
Theorem removed_pipes_already_passed
  (inputs : list (list Event * Z)) (g g1 : Game.t)
  (events : list Event) (gap_y : Z) (q : Pipe.t) :
  Forall (fun i => valid_gap (snd i)) inputs ->
  Game.run Game.init inputs = Some g ->
  Game._handle_events g events = Some g1 ->
  Game.game_over g1 = false ->
  In q (Game.pipes g1) ->
  ~ In (Pipe.move q)
      (Game.prune (Game.pipes (Game.spawn gap_y (Game.move_all g1)))) ->
  In (Pipe.move q) (Game.pipes (Game.spawn gap_y (Game.move_all g1))) /\
  Pipe.off_screen (Pipe.move q) = true /\
  Pipe.passed q = true /\
  Pipe.x q + PIPE_WIDTH < Bird.x (Game.bird g1) /\
  crossing (Bird.x (Game.bird g1)) (Pipe.move q) = false /\
  Game.score g
    = removed_so_far Game.init 0 inputs + marked (Game.pipes g) /\
  (exists g',
     Game.frame g events gap_y = Some g' /\
     ~ In (Pipe.move q) (Game.pipes g') /\
     1 <= removed_in_frame gap_y g1 /\
     removed_so_far Game.init 0 (inputs ++ [(events, gap_y)])
       = removed_so_far Game.init 0 inputs + removed_in_frame gap_y g1 /\
     Game.score g'
       = removed_so_far Game.init 0 (inputs ++ [(events, gap_y)])
         + marked (Game.pipes g')) /\
  (forall p, Pipe.off_screen p = true ->
             Pipe.x p + PIPE_WIDTH < Bird.x (Game.bird g1)) /\
  (forall gap n p,
     pipe_life (Bird.x (Game.bird g1)) n (Pipe.init SCREEN_WIDTH gap)
       = Some p ->
     Pipe.off_screen (Pipe.move p) = true ->
     (108 < n)%nat /\ Pipe.passed p = true).
Proof.
  intros Hv Hrun He Hplay Hq Hout.
  pose proof (run_reachable inputs Game.init g Hv reachable_init Hrun) as Hr.
  assert (HI : Inv g1)
    by (eapply Inv_handle_events; [apply reachable_Inv|]; eassumption).
  assert (Hbx : Bird.x (Game.bird g1) = 50) by apply HI.
  assert (Hin : In (Pipe.move q)
                  (Game.pipes (Game.spawn gap_y (Game.move_all g1)))).
  { unfold Game.spawn, Game.move_all.
    cbn [Game.pipes Game.pipe_spawn_counter].
    destruct (Game.pipe_spawn_counter g1 + 1 >? 90); cbn [Game.pipes];
      [apply in_or_app; left|]; now apply in_map. }
  assert (Hoff : Pipe.off_screen (Pipe.move q) = true).
  { destruct (Pipe.off_screen (Pipe.move q)) eqn:Hoff; [reflexivity|].
    exfalso. apply Hout. unfold Game.prune. apply filter_In.
    split; [exact Hin|]. now rewrite Hoff. }
  assert (Hpassed : Pipe.passed q = true).
  { destruct (removed_are_marked gap_y g1 (Pipe.move q) HI Hin Hoff)
      as [_ H]. exact H. }
  assert (Hx : Pipe.x q + PIPE_WIDTH < 50).
  { destruct HI as (_ & _ & _ & Hok & _). rewrite Forall_forall in Hok.
    destruct (Hok q Hq) as (_ & _ & _ & Hp & _). now apply Hp. }
  assert (Hg : Game.game_over g = false /\ (g1 = g \/ g1 = jumped g)).
  { destruct (handle_events_cases events g g1 He)
      as [H | [Ho [->|[->| ->]]]]; [exact H | congruence | destruct Hq..]. }
  destruct Hg as [Hg Hg1].
  pose proof (account_run inputs Game.init g 0 Hv reachable_init
                eq_refl Hrun) as Hacc.
  assert (Hacc1 : Game.score g1
                  = removed_so_far Game.init 0 inputs
                    + marked (Game.pipes g1))
    by (destruct Hg1 as [->| ->]; exact Hacc).
  assert (Hsnoc : removed_so_far Game.init 0 (inputs ++ [(events, gap_y)])
                  = removed_so_far Game.init 0 inputs
                    + removed_in_frame gap_y g1).
  { rewrite (removed_so_far_app inputs _ Game.init g 0 Hrun).
    cbn [removed_so_far]. now rewrite He, Hplay, Hg. }
  rewrite Hbx.
  split; [exact Hin|]. split; [exact Hoff|]. split; [exact Hpassed|].
  split; [exact Hx|].
  split; [unfold crossing, Pipe.move; cbn [Pipe.x Pipe.passed];
          rewrite Hpassed; apply andb_false_r|].
  split; [exact Hacc|].
  split; [|split].
  - exists (Game.update gap_y g1).
    split; [unfold Game.frame; now rewrite He|].
    split; [|split; [|split]].
    + rewrite update_playing by exact Hplay.
      rewrite check_collisions_eq, before_check_eq.
      cbn [Game.with_game_over Game.pipes]. fold (visited gap_y g1).
      intro H. apply in_map_iff in H as [p [Hp Hpin]].
      apply Hout. fold (visited gap_y g1).
      assert (Hpoff : Pipe.off_screen p = true).
      { rewrite <- Hoff, <- Hp. unfold Pipe.off_screen.
        now rewrite mark_x. }
      unfold visited, Game.prune in Hpin. apply filter_In in Hpin.
      rewrite Hpoff in Hpin. destruct Hpin as [_ Hpin]. discriminate.
    + unfold removed_in_frame.
      pose proof (prune_shortens _ _ Hin Hout). lia.
    + exact Hsnoc.
    + rewrite Hsnoc. now apply account_update.
  - intros p H. apply off_screen_iff in H. unfold PIPE_WIDTH in *. lia.
  - intros gap n p Hlife Hgone.
    rewrite pipe_life_closed_form in Hlife.
    destruct (Nat.leb_spec n 120) as [Hn|Hn]; [|discriminate].
    apply off_screen_iff in Hgone.
    unfold Pipe.move in Hgone. cbn [Pipe.x] in Hgone.
    assert (Hrec : p = Pipe.mk (SCREEN_WIDTH - 4 * Z.of_nat n) gap (-4)
                         (108 <=? n)%nat) by congruence.
    subst p.
    cbn [Pipe.x Pipe.velocity Pipe.passed] in Hgone |- *.
    unfold SCREEN_WIDTH, PIPE_WIDTH in Hgone.
    assert (H120 : (108 < n)%nat) by lia.
    split; [exact H120|].
    apply Nat.leb_le. lia.
Qed.

Lemma removed_pipes_already_passed_witness :
  Forall (fun i => valid_gap (snd i)) (script 250 211) /\
  Game.run Game.init (script 250 211) = Some (state_at 211) /\
  Game._handle_events (state_at 211) [] = Some (state_at 211) /\
  Game.game_over (state_at 211) = false /\
  In (Pipe.mk (-80) 250 (-4) true) (Game.pipes (state_at 211)) /\
  ~ In (Pipe.move (Pipe.mk (-80) 250 (-4) true))
      (Game.prune
         (Game.pipes (Game.spawn 250 (Game.move_all (state_at 211))))) /\
  In (Pipe.move (Pipe.mk (-80) 250 (-4) true))
    (Game.pipes (Game.spawn 250 (Game.move_all (state_at 211)))) /\
  Pipe.off_screen (Pipe.move (Pipe.mk (-80) 250 (-4) true)) = true /\
  Pipe.passed (Pipe.mk (-80) 250 (-4) true) = true /\
  Pipe.x (Pipe.mk (-80) 250 (-4) true) + PIPE_WIDTH
    < Bird.x (Game.bird (state_at 211)) /\
  crossing (Bird.x (Game.bird (state_at 211)))
    (Pipe.move (Pipe.mk (-80) 250 (-4) true)) = false /\
  Game.score (state_at 211)
    = removed_so_far Game.init 0 (script 250 211)
      + marked (Game.pipes (state_at 211)) /\
  (exists g',
     Game.frame (state_at 211) [] 250 = Some g' /\
     ~ In (Pipe.move (Pipe.mk (-80) 250 (-4) true)) (Game.pipes g') /\
     1 <= removed_in_frame 250 (state_at 211) /\
     removed_so_far Game.init 0 (script 250 211 ++ [([], 250)])
       = removed_so_far Game.init 0 (script 250 211)
         + removed_in_frame 250 (state_at 211) /\
     Game.score g'
       = removed_so_far Game.init 0 (script 250 211 ++ [([], 250)])
         + marked (Game.pipes g')) /\
  (forall p, Pipe.off_screen p = true ->
             Pipe.x p + PIPE_WIDTH < Bird.x (Game.bird (state_at 211))) /\
  (forall gap n p,
     pipe_life (Bird.x (Game.bird (state_at 211))) n
       (Pipe.init SCREEN_WIDTH gap) = Some p ->
     Pipe.off_screen (Pipe.move p) = true ->
     (108 < n)%nat /\ Pipe.passed p = true).
Proof.
  assert (Hv : Forall (fun i => valid_gap (snd i)) (script 250 211))
    by (apply script_valid; exact valid_gap_250).
  assert (Hrun : Game.run Game.init (script 250 211) = Some (state_at 211))
    by by_evaluation.
  assert (Hplay : Game.game_over (state_at 211) = false) by by_evaluation.
  assert (Hin : In (Pipe.mk (-80) 250 (-4) true) (Game.pipes (state_at 211)))
    by (vm_compute; now left).
  assert (Hout : ~ In (Pipe.move (Pipe.mk (-80) 250 (-4) true))
                   (Game.prune
                      (Game.pipes
                         (Game.spawn 250 (Game.move_all (state_at 211)))))).
  { vm_compute. intros [H|[]]. discriminate H. }
  split; [exact Hv|].
  split; [exact Hrun|]. split; [reflexivity|].
  split; [exact Hplay|]. split; [exact Hin|]. split; [exact Hout|].
  apply (removed_pipes_already_passed (script 250 211) (state_at 211)
           (state_at 211) [] 250 (Pipe.mk (-80) 250 (-4) true)).
  - exact Hv.
  - exact Hrun.
  - reflexivity.
  - exact Hplay.
  - exact Hin.
  - exact Hout.
Defined.

(** The first pipe of the sample session: scored in frame 199, still
    there and marked in frame 211, gone in frame 212, the score being
    what it was: one marked pipe and none removed before, none marked
    and one removed after. *)
Example first_pipe_removed_after_scoring :
  Game.pipes (state_at 211)
    = [Pipe.mk (-80) 250 (-4) true; Pipe.mk 284 250 (-4) false] /\
  Game.score (state_at 211) = 1 /\
  removed_so_far Game.init 0 (script 250 211) = 0 /\
  marked (Game.pipes (state_at 211)) = 1 /\
  Game.pipes (state_at 212) = [Pipe.mk 280 250 (-4) false] /\
  Game.score (state_at 212) = 1 /\
  removed_so_far Game.init 0 (script 250 212) = 1 /\
  marked (Game.pipes (state_at 212)) = 0.
Proof. split_all; by_evaluation. Qed.
